(** * riffraff: a command-line client for a Jenkins server

    A shallow embedding of the commands of riffraff ([status], [logs],
    [nodes], [open]) and of the helpers they share ([getFailedSaltStates],
    [findMatchingJobs]), with the properties of the reporting core.

    Go strings are byte sequences: they are modelled as [string] (a list of
    8-bit [ascii]).  The Jenkins client (gojenkins), the regular-expression
    engine and the browser launcher are external collaborators: they appear
    as records of answers ([Jenkins]) or as a class ([RegexpEngine]). *)

From Stdlib Require Import String Ascii List Bool Arith ZArith Lia Permutation.
Import ListNotations.

Local Open Scope string_scope.
Local Open Scope list_scope.

(** ** The fragment of Go's [strings] package the program calls *)

Module strings.

(** [s[n:]] *)
Fixpoint drop (n : nat) (s : string) : string :=
  match n, s with
  | O, _ => s
  | S n', String _ s' => drop n' s'
  | S _, EmptyString => EmptyString
  end.

(** [s[:n]] *)
Fixpoint take (n : nat) (s : string) : string :=
  match n, s with
  | O, _ => EmptyString
  | S n', String c s' => String c (take n' s')
  | S _, EmptyString => EmptyString
  end.

(** [HasPrefix] reports whether [s] begins with [prefix]. *)
Fixpoint HasPrefix (s prefix : string) {struct prefix} : bool :=
  match prefix, s with
  | EmptyString, _ => true
  | String p ps, String c cs => Ascii.eqb c p && HasPrefix cs ps
  | String _ _, EmptyString => false
  end.

(** [Index] returns the index of the first instance of [substr] in [s],
    or [-1] if [substr] is not present in [s]. *)
Fixpoint Index (s substr : string) : Z :=
  if HasPrefix s substr then 0%Z
  else match s with
       | EmptyString => (-1)%Z
       | String _ s' =>
           let m := Index s' substr in
           if (m <? 0)%Z then (-1)%Z else (m + 1)%Z
       end.

(** [Contains] reports whether [substr] is within [s]:
    [Index(s, substr) >= 0]. *)
Definition Contains (s substr : string) : bool :=
  (0 <=? Index s substr)%Z.

(** The loop of [genSplit] for a non-empty separator: cut [s] at the first
    instance of [sep], keep what is before it, go on after it.  Every round
    removes at least [len(sep)] bytes, so [len(s)] rounds are enough. *)
Fixpoint genSplit (fuel : nat) (s sep : string) : list string :=
  match fuel with
  | O => [s]
  | S fuel' =>
      let m := Index s sep in
      if (m <? 0)%Z then [s]
      else take (Z.to_nat m) s
           :: genSplit fuel' (drop (Z.to_nat m + String.length sep) s) sep
  end.

(** [Split] slices [s] into all substrings separated by [sep].  The program
    passes a constant, non-empty separator; the branch of the library for
    an empty one (one substring per UTF-8 sequence) is not part of the
    model. *)
Definition Split (s sep : string) : list string :=
  genSplit (String.length s) s sep.

End strings.

(** ** Salt output filter *)

Definition saltSeparator : string := "----------".
Definition saltFailure : string := "Result: False".

(** The body of the [for _, state := range saltStates] loop. *)
Definition keepFailed (failedStates : list string) (state : string) : list string :=
  if strings.Contains state saltFailure
  then failedStates ++ [state]
  else failedStates.

Definition getFailedSaltStates (output : string) : list string :=
  let saltStates := strings.Split output saltSeparator in
  fold_left keepFailed saltStates [].

(** ** Effects of a command

    A command writes to standard output, writes a diagnostic, or asks the
    desktop to open a URL; it ends by returning, by panicking (a nil
    dereference) or by leaving the process ([log.Fatalf]). *)

Definition error := string.

Inductive Event : Type :=
| Stdout (text : string)
| Stderr (text : string)
| OpenRun (url : string).

Inductive Outcome (A : Type) : Type :=
| Ret (a : A)
| Panic (reason : string)
| Exit (code : Z).
Arguments Ret {A} a.
Arguments Panic {A} reason.
Arguments Exit {A} code.

Definition Cmd (A : Type) : Type := list Event * Outcome A.

Definition ret {A} (a : A) : Cmd A := ([], Ret a).

Definition bind {A B} (c : Cmd A) (k : A -> Cmd B) : Cmd B :=
  match c with
  | (t, Ret a) => let (t', o) := k a in (t ++ t', o)
  | (t, Panic r) => (t, Panic r)
  | (t, Exit n) => (t, Exit n)
  end.

Notation "x <- c ;; k" := (bind c (fun x => k))
  (at level 61, c at next level, right associativity).
Notation "c ;;; k" := (bind c (fun _ => k))
  (at level 61, right associativity).

Definition emit (e : Event) : Cmd unit := ([e], Ret tt).

(** [for _, x := range xs { body(x) }] *)
Fixpoint forRange {A} (xs : list A) (body : A -> Cmd unit) : Cmd unit :=
  match xs with
  | [] => ret tt
  | x :: xs' => body x ;;; forRange xs' body
  end.

Definition nilDereference : string :=
  "runtime error: invalid memory address or nil pointer dereference".

(** A method of gojenkins called through a pointer reads the fields of its
    receiver: through [nil] it panics. *)
Definition deref {A} (p : option A) : Cmd A :=
  match p with
  | Some a => ret a
  | None => ([], Panic nilDereference)
  end.

(** What the process has written to standard output. *)
Fixpoint stdout (t : list Event) : list string :=
  match t with
  | [] => []
  | Stdout s :: t' => s :: stdout t'
  | _ :: t' => stdout t'
  end.

(** The URLs handed to the browser launcher, in order. *)
Fixpoint opened (t : list Event) : list string :=
  match t with
  | [] => []
  | OpenRun u :: t' => u :: opened t'
  | _ :: t' => opened t'
  end.

(** ** The fragment of Go's [fmt] package the program calls *)

Module fmt.

(** [%v] of a string operand writes the string itself; the formats with
    operands are constants of the program, so each call is the
    concatenation it denotes. *)

(** [fmt.Sprintf("UNKNOWN (%v)", err)] *)
Definition Sprintf_UNKNOWN (err : error) : string :=
  "UNKNOWN (" ++ err ++ ")".

(** [fmt.Printf("%v %v (%v)\n", marker, name, url)] *)
Definition Printf_status (marker name url : string) : Cmd unit :=
  emit (Stdout (marker ++ " " ++ name ++ " (" ++ url ++ ")" ++ String "010" "")).

(** [fmt.Printf("Jenkins result code: %v\n", result)] *)
Definition Printf_result (result : string) : Cmd unit :=
  emit (Stdout ("Jenkins result code: " ++ result ++ String "010" "")).

(** [fmt.Printf("%v/consoleText\n", url)] *)
Definition Printf_consoleText (url : string) : Cmd unit :=
  emit (Stdout (url ++ "/consoleText" ++ String "010" "")).

(** [fmt.Printf("%v: Online\n", name)] and [fmt.Printf("%v: Offline\n", name)] *)
Definition Printf_online (name : string) : Cmd unit :=
  emit (Stdout (name ++ ": Online" ++ String "010" "")).
Definition Printf_offline (name : string) : Cmd unit :=
  emit (Stdout (name ++ ": Offline" ++ String "010" "")).

(** [fmt.Println(s)] *)
Definition Println (s : string) : Cmd unit :=
  emit (Stdout (s ++ String "010" "")).

(** *** [doPrintf] with an empty operand list

    [fmt.Printf(format)] with no operand still scans [format] for verbs.
    With no operand [argNum] stays [0], no argument index is in range, and
    every verb but [%%] is reported in the output.  The functions below
    work on the rest of the format, [format[i:]]. *)

Definition isFlag (c : ascii) : bool :=
  match c with
  | "#"%char | "0"%char | "+"%char | "-"%char | " "%char => true
  | _ => false
  end.

(** The [simpleFormat] loop: flags are read and, with no operand to print,
    have no effect. *)
Fixpoint skipFlags (s : string) : string :=
  match s with
  | String c s' => if isFlag c then skipFlags s' else s
  | EmptyString => EmptyString
  end.

Definition isDigit (c : ascii) : bool :=
  ((48 <=? nat_of_ascii c) && (nat_of_ascii c <=? 57))%nat.

(** [tooLarge]: [x > 1e6] (the parsed number is never negative). *)
Definition tooLarge (x : Z) : bool := (1000000 <? x)%Z.

(** The loop of [parsenum] over [s = format[start:]] with [limit = end - start]
    bytes left; [i] counts the bytes read.  The result is the number, whether
    one was read, and how far the index moved ([newi - start]). *)
Fixpoint parsenum_loop (s : string) (limit : nat) (num : Z) (isnum : bool) (i : nat)
  : Z * bool * nat :=
  match limit, s with
  | S limit', String c s' =>
      if isDigit c then
        if tooLarge num then (0%Z, false, i + limit)
        else parsenum_loop s' limit'
               (num * 10 + Z.of_nat (nat_of_ascii c - 48))%Z true (S i)
      else (num, isnum, i)
  | _, _ => (num, isnum, i)
  end.

Definition parsenum (s : string) (limit : nat) : Z * bool * nat :=
  parsenum_loop s limit 0%Z false 0.

(** Index of the first ["]"] of [s], counted from [i]. *)
Fixpoint closingBracket (s : string) (i : nat) : option nat :=
  match s with
  | EmptyString => None
  | String c s' => if Ascii.eqb c "]" then Some i else closingBracket s' (S i)
  end.

(** [parseArgNumber(format)] for a format that starts with ["["]: the index,
    the width of the bracketed text, and whether it is a number. *)
Definition parseArgNumber (format : string) : Z * nat * bool :=
  if (String.length format <? 3)%nat then (0%Z, 1, false)
  else match closingBracket (strings.drop 1 format) 1 with
       | Some i =>
           let '(width, ok, moved) := parsenum (strings.drop 1 format) (i - 1) in
           if negb ok || negb (1 + moved =? i)%nat then (0%Z, i + 1, false)
           else ((width - 1)%Z, i + 1, true)
       | None => (0%Z, 1, false)
       end.

(** [argNumber] with [numArgs = 0]: an explicit index is never in range, so
    [goodArgNum] is cleared whenever a bracket is met.  Returns the rest of
    the format, [found] and [goodArgNum]. *)
Definition argNumber (s : string) (goodArgNum : bool) : string * bool * bool :=
  match s with
  | String "["%char _ =>
      let '(_, wid, ok) := parseArgNumber s in
      (strings.drop wid s, ok, false)
  | _ => (s, false, goodArgNum)
  end.

Definition byteIn (lo hi : nat) (c : ascii) : bool :=
  ((lo <=? nat_of_ascii c) && (nat_of_ascii c <=? hi))%nat.

(** U+FFFD in UTF-8, what [writeRune] emits for [utf8.RuneError]. *)
Definition runeError : string :=
  String (ascii_of_nat 239) (String (ascii_of_nat 191) (String (ascii_of_nat 189) "")).

(** The bounds on the second byte and the number of continuation bytes that
    the first byte of a UTF-8 sequence asks for. *)
Definition utf8First (c : ascii) : option (nat * nat * nat) :=
  let n := nat_of_ascii c in
  if ((194 <=? n) && (n <=? 223))%nat then Some (1, 128, 191)
  else if (n =? 224)%nat then Some (2, 160, 191)
  else if (n =? 237)%nat then Some (2, 128, 159)
  else if ((225 <=? n) && (n <=? 239))%nat then Some (2, 128, 191)
  else if (n =? 240)%nat then Some (3, 144, 191)
  else if ((241 <=? n) && (n <=? 243))%nat then Some (3, 128, 191)
  else if (n =? 244)%nat then Some (3, 128, 143)
  else None.

Fixpoint continuation (n : nat) (s : string) : bool :=
  match n, s with
  | O, _ => true
  | S n', String c s' => byteIn 128 191 c && continuation n' s'
  | S _, EmptyString => false
  end.

(** The verb at the head of [s]: the bytes [writeRune] emits for it and its
    size in the format ([utf8.DecodeRuneInString] when the first byte is
    not ASCII; an invalid sequence is [RuneError] of size 1). *)
Definition decodeVerb (s : string) : string * nat :=
  match s with
  | EmptyString => (EmptyString, 0)
  | String c0 t =>
      if (nat_of_ascii c0 <? 128)%nat then (String c0 "", 1)
      else match utf8First c0, t with
           | Some (more, lo, hi), String c1 t' =>
               if byteIn lo hi c1 && continuation (more - 1) t'
               then (strings.take (S more) s, S more)
               else (runeError, 1)
           | _, _ => (runeError, 1)
           end
  end.

(** One verb: [s] is the format after the ["%"].  Returns what is written
    and the format left, or [None] when the loop is left ([NOVERB]). *)
Definition doVerb (s : string) : string * option string :=
  let s := skipFlags s in
  let '(s, afterIndex, good) := argNumber s true in
  let '(w1, s, afterIndex, good) :=
    match s with
    | String "*"%char s' => ("%!(BADWIDTH)", s', false, good)
    | _ =>
        let '(_, widPresent, moved) := parsenum s (String.length s) in
        ("", strings.drop moved s, afterIndex,
         if afterIndex && widPresent then false else good)
    end in
  let '(w2, s, afterIndex, good) :=
    match s with
    | String "."%char s' =>
        let good := if afterIndex then false else good in
        let '(s', afterIndex, good) := argNumber s' good in
        match s' with
        | String "*"%char s'' => ("%!(BADPREC)", s'', false, good)
        | _ =>
            let '(_, _, moved) := parsenum s' (String.length s') in
            ("", strings.drop moved s', afterIndex, good)
        end
    | _ => ("", s, afterIndex, good)
    end in
  let '(s, _, good) :=
    if afterIndex then (s, afterIndex, good) else argNumber s good in
  match s with
  | EmptyString => ((w1 ++ w2 ++ "%!(NOVERB)")%string, None)
  | String _ _ =>
      let '(verb, size) := decodeVerb s in
      let w3 :=
        (if String.eqb verb "%" then "%"
         else if negb good then "%!" ++ verb ++ "(BADINDEX)"
         else "%!" ++ verb ++ "(MISSING)")%string in
      ((w1 ++ w2 ++ w3)%string, Some (strings.drop size s))
  end.

(** The text of [format] up to the first ["%"], and the rest. *)
Fixpoint literal (format : string) : string * string :=
  match format with
  | EmptyString => (EmptyString, EmptyString)
  | String c s' =>
      if Ascii.eqb c "%" then (EmptyString, format)
      else let (l, r) := literal s' in (String c l, r)
  end.

(** [formatLoop]: every round reads at least one byte of the format. *)
Fixpoint doPrintf (fuel : nat) (format : string) : string :=
  match fuel with
  | O => EmptyString
  | S fuel' =>
      let (l, r) := literal format in
      match r with
      | EmptyString => l
      | String _ afterPercent =>
          let (w, next) := doVerb afterPercent in
          (l ++ w ++ match next with
                     | Some s => doPrintf fuel' s
                     | None => EmptyString
                     end)%string
      end
  end.

(** [fmt.Printf(format)], no operand. *)
Definition Printf (format : string) : Cmd unit :=
  emit (Stdout (doPrintf (S (String.length format)) format)).

End fmt.

(** ** The regular-expression engine

    Go's [regexp] package is an external collaborator: a type of compiled
    expressions, [Compile], and the unanchored search [Regexp.MatchString]
    that reports whether a string contains any match of the expression. *)

Class RegexpEngine : Type := {
  Regexp : Type;
  Compile : string -> Regexp + error;
  Regexp_MatchString : Regexp -> string -> bool
}.

Module regexp.

(** [regexp.MatchString(pattern, s)]: compile, then search;
    [(false, err)] when the pattern does not compile. *)
Definition MatchString `{RegexpEngine} (pattern s : string) : bool * option error :=
  match Compile pattern with
  | inr err => (false, Some err)
  | inl re => (Regexp_MatchString re s, None)
  end.

End regexp.

(** ** The Jenkins client

    The answers of the server, as the gojenkins calls of the program read
    them.  A Go result of a pointer and an error is a pair of a pointer that may be
    [nil] and an error that may be [nil]. *)

Record InnerJob : Type := { Name : string; Url : string }.

Record Job : Type := { Base : string }.

(** What the accessors of a [*Build] answer. *)
Record Build : Type := {
  GetResult : string;
  GetUrl : string;
  GetConsoleOutput : string
}.

(** The local view of a node: [Poll] refreshes it from the server. *)
Record Node : Type := { GetName : string; Raw : string }.

Record Jenkins : Type := {
  GetJob : string -> option Job * option error;
  GetLastBuild : Job -> option Build * option error;
  GetAllJobNames : list InnerJob * option error;
  GetAllNodes : list Node * option error;
  Poll : Node -> Node * option error;
  IsOnline : Node -> bool * option error
}.

(** The three status markers: the constants [Good], [Bad] and [Unknown] of
    package [commands], which are [green("✓")], [red("✗")] and [yellow("?")]
    in [main]; their text depends on the terminal. *)
Record Markers : Type := { Good : string; Bad : string; Unknown : string }.

(** ** The reporters *)

Section Commands.

Context `{RegexpEngine}.
Variable markers : Markers.
Variable jenkins : Jenkins.

(** [lastBuild, err := build.GetLastBuild()] and the [if err != nil] that
    follows: the result string of the last build. *)
Definition lastBuildResult (lastBuild : option Build) (err : option error) : Cmd string :=
  match err with
  | Some e => ret (fmt.Sprintf_UNKNOWN e)
  | None => b <- deref lastBuild ;; ret (GetResult b)
  end.

(** [switch result { case "SUCCESS": ... case "FAILURE": ... default: ... }] *)
Definition statusMarker (result : string) : string :=
  if String.eqb result "SUCCESS" then Good markers
  else if String.eqb result "FAILURE" then Bad markers
  else Unknown markers.

(** The body of [printStatus]; the deferred [waitGroup.Done()] belongs to
    the goroutine that runs it (see [FanOut]). *)
Definition printStatus (job : InnerJob) : Cmd (option error) :=
  let '(build, err) := GetJob jenkins (Name job) in
  match err with
  | Some e => ret (Some e)
  | None =>
      j <- deref build ;;
      let '(lastBuild, err) := GetLastBuild jenkins j in
      result <- lastBuildResult lastBuild err ;;
      let marker := statusMarker result in
      fmt.Printf_status marker (Name job) (Url job) ;;;
      ret None
  end.

(** [logsExec] of [main], which is [Logs.Exec] of package [commands]. *)
Definition logsExec (jobName : string) (salt : bool) : Cmd (option error) :=
  let '(build, err) := GetJob jenkins jobName in
  match err with
  | Some e => ret (Some e)
  | None =>
      j <- deref build ;;
      let '(lastBuild, err) := GetLastBuild jenkins j in
      result <- lastBuildResult lastBuild err ;;
      let marker := statusMarker result in
      b <- deref lastBuild ;;
      fmt.Printf_status marker jobName (GetUrl b) ;;;
      fmt.Printf_result result ;;;
      b <- deref lastBuild ;;
      let consoleOutput := GetConsoleOutput b in
      (if salt
       then forRange (getFailedSaltStates consoleOutput) fmt.Println
       else fmt.Printf consoleOutput) ;;;
      b <- deref lastBuild ;;
      fmt.Printf_consoleText (GetUrl b) ;;;
      ret None
  end.

(** The body of the [for _, job := range jobs] loop of [findMatchingJobs]. *)
Definition keepMatching (regex : string) (matchingJobs : list InnerJob) (job : InnerJob)
  : list InnerJob :=
  let '(matched, _) := regexp.MatchString regex (Name job) in
  if matched then matchingJobs ++ [job] else matchingJobs.

(** Find all jobs matching the given regex. *)
Definition findMatchingJobs (regex : string) : list InnerJob * option error :=
  let '(jobs, err) := GetAllJobNames jenkins in
  match err with
  | Some e => ([], Some e)
  | None => (fold_left (keepMatching regex) jobs [], None)
  end.

(** The body of [printNodeStatus]: poll, then read. *)
Definition printNodeStatus (node : Node) : Cmd (option error) :=
  let '(node, _) := Poll jenkins node in
  let '(online, err) := IsOnline jenkins node in
  match err with
  | Some e => ret (Some e)
  | None =>
      (if online
       then fmt.Printf_online (GetName node)
       else fmt.Printf_offline (GetName node)) ;;;
      ret None
  end.

Definition tooManyJobs : string :=
  "More than three jobs match your criteria. This is probably not what you expected. Please narrow down your search"
  ++ String "010" "".

(** [log.Fatalf]: the message on standard error (after the time the logger
    puts before it), then [os.Exit(1)]. *)
Definition log_Fatalf {A} (message : string) : Cmd A :=
  ([Stderr message], Exit 1%Z).

(** [open.Run(url)]; its result is not looked at. *)
Definition open_Run (url : string) : Cmd unit := emit (OpenRun url).

Definition openExec (regex : string) : Cmd (option error) :=
  let '(jobs, err) := findMatchingJobs regex in
  match err with
  | Some e => ret (Some e)
  | None =>
      (if (3 <? List.length jobs)%nat then log_Fatalf tooManyJobs else ret tt) ;;;
      forRange jobs (fun job => open_Run (Url job)) ;;;
      ret None
  end.

End Commands.

(** ** Fan-out: one goroutine per item, joined by a [sync.WaitGroup]

    [statusExec] and [nodes] share one shape:
    [waitGroup.Add(len(items)); defer waitGroup.Wait();
     for _, x := range items { go reporter(&waitGroup, x) }; return nil].
    The main goroutine and the reporters interleave; a schedule says who
    moves next.  A reporter writes its line in one call and runs its deferred
    [waitGroup.Done()] afterwards; the value it returns is dropped by [go]. *)

Section FanOut.

Variable Item : Type.
Variable reporter : Item -> Cmd (option error).

Inductive Phase : Type :=
| Spawned    (* started by [go], body not run yet *)
| Exiting    (* body run, deferred [Done] pending *)
| Finished.  (* [Done] called *)

Inductive MainPC : Type :=
| Looping (rest : list Item)  (* in the [for] loop *)
| Waiting                     (* [return nil] reached, in the deferred [Wait] *)
| Returned                    (* the command has returned [nil] *)
| Crashed.                    (* a goroutine panicked: the process is gone *)

Record FanState : Type := {
  pc : MainPC;
  waitGroup : Z;
  goroutines : list (Item * Phase);
  trace : list Event
}.

(** The state after [waitGroup.Add(len(items))]. *)
Definition fanOut (items : list Item) : FanState :=
  {| pc := Looping items;
     waitGroup := Z.of_nat (List.length items);
     goroutines := [];
     trace := [] |}.

Definition replace {A} (i : nat) (a : A) (l : list A) : list A :=
  firstn i l ++ a :: skipn (S i) l.

(** One move of the main goroutine; [None] when it cannot move ([Wait]
    blocks while the counter is not zero). *)
Definition mainStep (s : FanState) : option FanState :=
  match pc s with
  | Looping (x :: rest) =>
      Some {| pc := Looping rest;
              waitGroup := waitGroup s;
              goroutines := goroutines s ++ [(x, Spawned)];
              trace := trace s |}
  | Looping [] =>
      Some {| pc := Waiting;
              waitGroup := waitGroup s;
              goroutines := goroutines s;
              trace := trace s |}
  | Waiting =>
      if (waitGroup s =? 0)%Z
      then Some {| pc := Returned;
                   waitGroup := waitGroup s;
                   goroutines := goroutines s;
                   trace := trace s |}
      else None
  | Returned | Crashed => None
  end.

(** One move of goroutine [i]: its body, or its deferred [Done]. *)
Definition goroutineStep (i : nat) (s : FanState) : option FanState :=
  match pc s with
  | Crashed => None
  | _ =>
      match nth_error (goroutines s) i with
      | Some (x, Spawned) =>
          match reporter x with
          | (t, Ret _) =>
              Some {| pc := pc s;
                      waitGroup := waitGroup s;
                      goroutines := replace i (x, Exiting) (goroutines s);
                      trace := trace s ++ t |}
          | (t, _) =>
              Some {| pc := Crashed;
                      waitGroup := waitGroup s;
                      goroutines := goroutines s;
                      trace := trace s ++ t |}
          end
      | Some (x, Exiting) =>
          Some {| pc := pc s;
                  waitGroup := (waitGroup s - 1)%Z;
                  goroutines := replace i (x, Finished) (goroutines s);
                  trace := trace s |}
      | Some (_, Finished) | None => None
      end
  end.

Inductive Choice : Type :=
| Main
| Goroutine (i : nat).

Definition step (c : Choice) (s : FanState) : option FanState :=
  match c with
  | Main => mainStep s
  | Goroutine i => goroutineStep i s
  end.

(** The state a schedule leads to, when every move of it can be made. *)
Fixpoint run (schedule : list Choice) (s : FanState) : option FanState :=
  match schedule with
  | [] => Some s
  | c :: schedule' =>
      match step c s with
      | Some s' => run schedule' s'
      | None => None
      end
  end.

(** The schedule that starts every goroutine, lets each run to its end in
    turn, and then lets the main goroutine through [Wait]. *)
Definition inTurn (n : nat) : list Choice :=
  repeat Main (S n)
  ++ flat_map (fun i => [Goroutine i; Goroutine i]) (seq 0 n)
  ++ [Main].

End FanOut.

Arguments Looping {Item} rest.
Arguments Waiting {Item}.
Arguments Returned {Item}.
Arguments Crashed {Item}.
Arguments pc {Item} f.
Arguments waitGroup {Item} f.
Arguments goroutines {Item} f.
Arguments trace {Item} f.
Arguments fanOut {Item} items.
Arguments run {Item} reporter schedule s.
Arguments step {Item} reporter c s.
Arguments mainStep {Item} s.
Arguments goroutineStep {Item} reporter i s.

Section FanOutCommands.

Context `{RegexpEngine}.
Variable markers : Markers.
Variable jenkins : Jenkins.

(** [statusExec]: the error of the job listing, or the fan-out of
    [printStatus] over the matching jobs. *)
Definition statusExec (regex : string) : error + FanState InnerJob :=
  let '(jobs, err) := findMatchingJobs jenkins regex in
  match err with
  | Some e => inl e
  | None => inr (fanOut jobs)
  end.

(** [nodes]: the error of the node listing, or the fan-out of
    [printNodeStatus] over all nodes. *)
Definition nodes : error + FanState Node :=
  let '(nodes, err) := GetAllNodes jenkins in
  match err with
  | Some e => inl e
  | None => inr (fanOut nodes)
  end.

End FanOutCommands.

(** ** A small regular-expression engine

    An instance of [RegexpEngine] for the patterns made of literal bytes,
    [.] and a postfix [*], on which it agrees with Go's engine; it rejects
    every other pattern.  It is what the examples below run on. *)

Module miniregexp.

Inductive re : Type :=
| Fail
| Eps
| Lit (c : ascii)
| AnyNotNL
| Alt (r1 r2 : re)
| Cat (r1 r2 : re)
| Star (r : re).

Fixpoint nullable (r : re) : bool :=
  match r with
  | Fail | Lit _ | AnyNotNL => false
  | Eps | Star _ => true
  | Alt r1 r2 => nullable r1 || nullable r2
  | Cat r1 r2 => nullable r1 && nullable r2
  end.

(** What is left of [r] to match after the byte [c]. *)
Fixpoint deriv (c : ascii) (r : re) : re :=
  match r with
  | Fail | Eps => Fail
  | Lit c' => if Ascii.eqb c c' then Eps else Fail
  | AnyNotNL => if Ascii.eqb c "010" then Fail else Eps
  | Alt r1 r2 => Alt (deriv c r1) (deriv c r2)
  | Cat r1 r2 =>
      if nullable r1
      then Alt (Cat (deriv c r1) r2) (deriv c r2)
      else Cat (deriv c r1) r2
  | Star r1 => Cat (deriv c r1) (Star r1)
  end.

(** Some prefix of [s] matches [r]. *)
Fixpoint matchHere (r : re) (s : string) : bool :=
  nullable r ||
  match s with
  | String c s' => matchHere (deriv c r) s'
  | EmptyString => false
  end.

(** [s] contains a match of [r]. *)
Fixpoint search (r : re) (s : string) : bool :=
  matchHere r s ||
  match s with
  | String _ s' => search r s'
  | EmptyString => false
  end.

Definition isMeta (c : ascii) : bool :=
  match c with
  | "\"%char | "+"%char | "?"%char | "("%char | ")"%char | "|"%char
  | "["%char | "]"%char | "{"%char | "}"%char | "^"%char | "$"%char => true
  | _ => false
  end.

Definition seqOf (done : re) (last : option (re * bool)) : re :=
  match last with
  | Some (a, _) => Cat done a
  | None => done
  end.

(** [done] is the expression read so far but for its last item [last],
    which a [*] may still repeat; the flag says that one already did. *)
Fixpoint parse (pattern : string) (done : re) (last : option (re * bool)) : re + error :=
  match pattern with
  | EmptyString => inl (seqOf done last)
  | String c rest =>
      if Ascii.eqb c "*" then
        match last with
        | None =>
            inr "error parsing regexp: missing argument to repetition operator: `*`"
        | Some (_, true) =>
            inr "error parsing regexp: invalid nested repetition operator: `**`"
        | Some (a, false) => parse rest done (Some (Star a, true))
        end
      else if Ascii.eqb c "." then parse rest (seqOf done last) (Some (AnyNotNL, false))
      else if isMeta c then inr "miniregexp: syntax outside the fragment"
      else parse rest (seqOf done last) (Some (Lit c, false))
  end.

Definition compile (pattern : string) : re + error := parse pattern Eps None.

End miniregexp.

#[export] Instance miniRegexp : RegexpEngine := {|
  Regexp := miniregexp.re;
  Compile := miniregexp.compile;
  Regexp_MatchString := miniregexp.search
|}.

(** ** An example server *)

Module example.

Definition markers : Markers := {| Good := "OK"; Bad := "FAILED"; Unknown := "?" |}.

Definition jobs : list InnerJob :=
  [ {| Name := "build-api";  Url := "http://ci/job/build-api/" |};
    {| Name := "build-web";  Url := "http://ci/job/build-web/" |};
    {| Name := "deploy-api"; Url := "http://ci/job/deploy-api/" |};
    {| Name := "nightly";    Url := "http://ci/job/nightly/" |} ].

Definition nodeList : list Node :=
  [ {| GetName := "master"; Raw := "stale" |};
    {| GetName := "agent-1"; Raw := "stale" |};
    {| GetName := "agent-2"; Raw := "stale" |} ].

Definition saltConsole : string :=
  "ID: nginx Result: True----------ID: redis Result: False Comment: down----------Summary".

(** [build-api] succeeded and its console shows a percentage; [build-web]
    failed; the last build of [deploy-api] cannot be fetched; [nightly]
    cannot be resolved at all.  The poll of [agent-1] fails, the online
    query of [agent-2] fails. *)
Definition jenkins : Jenkins :=
  {| GetJob := fun name =>
       if String.eqb name "nightly" then (None, Some "404")
       else (Some {| Base := name |}, None);
     GetLastBuild := fun job =>
       if String.eqb (Base job) "build-api" then
         (Some {| GetResult := "SUCCESS";
                  GetUrl := "http://ci/job/build-api/7/";
                  GetConsoleOutput := "Progress: 100%" |}, None)
       else if String.eqb (Base job) "build-web" then
         (Some {| GetResult := "FAILURE";
                  GetUrl := "http://ci/job/build-web/3/";
                  GetConsoleOutput := saltConsole |}, None)
       else (None, Some "404");
     GetAllJobNames := (jobs, None);
     GetAllNodes := (nodeList, None);
     Poll := fun node =>
       if String.eqb (GetName node) "agent-1" then (node, Some "timeout")
       else ({| GetName := GetName node; Raw := "fresh" |}, None);
     IsOnline := fun node =>
       if String.eqb (GetName node) "agent-2" then (false, Some "503")
       else (true, None) |}.

End example.

(** ** What a fan-out has done so far *)

Section FanOutView.

Variable Item : Type.
Variable reporter : Item -> Cmd (option error).

Definition isFinished (g : Item * Phase) : bool :=
  match snd g with
  | Finished => true
  | _ => false
  end.

(** The number of goroutines that have called [Done]. *)
Definition finished (gs : list (Item * Phase)) : nat :=
  List.length (filter isFinished gs).

(** What a goroutine has written: everything its body writes, once the
    body has run. *)
Definition printed (g : Item * Phase) : list Event :=
  match snd g with
  | Spawned => []
  | _ => fst (reporter (fst g))
  end.

(** A goroutine just started for [x], and one that has finished. *)
Definition spawned (x : Item) : Item * Phase := (x, Spawned).
Definition done (x : Item) : Item * Phase := (x, Finished).

(** The items the [for] loop has not reached yet. *)
Definition remaining (p : MainPC Item) : list Item :=
  match p with
  | Looping rest => rest
  | _ => []
  end.

(** The reporter returns for [x] (it does not panic). *)
Definition returns (x : Item) : Prop :=
  exists t e, reporter x = (t, Ret e).

(** The invariant of the fan-out over [items]. *)
Definition Inv (items : list Item) (s : FanState Item) : Prop :=
  pc s = Crashed \/
  (map fst (goroutines s) ++ remaining (pc s) = items /\
   waitGroup s = (Z.of_nat (List.length items) - Z.of_nat (finished (goroutines s)))%Z /\
   Permutation (trace s) (flat_map printed (goroutines s)) /\
   Forall (fun g => snd g <> Spawned -> returns (fst g)) (goroutines s) /\
   (pc s = Returned -> waitGroup s = 0%Z)).

End FanOutView.

Arguments isFinished {Item} g.
Arguments spawned {Item} x.
Arguments done {Item} x.
Arguments finished {Item} gs.
Arguments printed {Item} reporter g.
Arguments remaining {Item} p.
Arguments returns {Item} reporter x.
Arguments Inv {Item} reporter items s.

(** ** The line of one item, as the reporters are meant to print it *)

Definition newline : string := String "010" "".

(** The line of a job: none when the job cannot be resolved, the [Unknown]
    marker when its last build cannot be fetched. *)
Definition statusLine (markers : Markers) (jenkins : Jenkins) (job : InnerJob)
  : list string :=
  let line marker :=
    (marker ++ " " ++ Name job ++ " (" ++ Url job ++ ")" ++ newline)%string in
  match GetJob jenkins (Name job) with
  | (Some j, None) =>
      match GetLastBuild jenkins j with
      | (_, Some _) => [line (Unknown markers)]
      | (Some b, None) => [line (statusMarker markers (GetResult b))]
      | (None, None) => []
      end
  | _ => []
  end.

(** The job is resolved: [GetJob] gives no error. *)
Definition resolved (jenkins : Jenkins) (job : InnerJob) : bool :=
  match snd (GetJob jenkins (Name job)) with
  | None => true
  | Some _ => false
  end.

(** The line of a node: read from the node as [Poll] left it; none when
    the online query fails. *)
Definition nodeLine (jenkins : Jenkins) (node : Node) : list string :=
  let polled := fst (Poll jenkins node) in
  match IsOnline jenkins polled with
  | (_, Some _) => []
  | (true, None) => [(GetName polled ++ ": Online" ++ newline)%string]
  | (false, None) => [(GetName polled ++ ": Offline" ++ newline)%string]
  end.

(** The online query on the polled node gives no error. *)
Definition answers (jenkins : Jenkins) (node : Node) : bool :=
  match snd (IsOnline jenkins (fst (Poll jenkins node))) with
  | None => true
  | Some _ => false
  end.

(** The name of the job matches the pattern: what [regexp.MatchString],
    the unanchored search of the engine, reports. *)
Definition matches `{RegexpEngine} (regex : string) (job : InnerJob) : bool :=
  fst (regexp.MatchString regex (Name job)).

(** ** [queue], [main] and package [commands] *)

(** The queue as [GetQueue] answers it; [QueueRaw] is its raw response as
    [fmt.Println] writes it. *)
Record Queue : Type := { QueueRaw : string }.

(** A client made by [gojenkins.CreateJenkins]: the answers of [Jenkins],
    the error of [Init] and the answer of [GetQueue]. *)
Record Session : Type := {
  client : Jenkins;
  Init : option error;
  GetQueue : option Queue * option error
}.

(** [queue] does not read [regex], [verbose] and [salt]. *)
Definition queue (session : Session) (regex : string) (verbose salt : bool)
  : Cmd (option error) :=
  let '(queue, err) := GetQueue session in
  match err with
  | Some e => ret (Some e)
  | None =>
      q <- deref queue ;;
      fmt.Println (QueueRaw q) ;;;
      ret None
  end.

Module commands.

Record Logs : Type := { jenkins : Jenkins; jobName : string; salt : bool }.

Definition NewLogs (jenkins : Jenkins) (jobName : string) (salt : bool) : Logs :=
  {| jenkins := jenkins; jobName := jobName; salt := salt |}.

(** [Logs.Exec], with the markers [Good], [Bad] and [Unknown] of the
    package. *)
Definition Exec (markers : Markers) (l : Logs) : Cmd (option error) :=
  let '(build, err) := GetJob (jenkins l) (jobName l) in
  match err with
  | Some e => ret (Some e)
  | None =>
      j <- deref build ;;
      let '(lastBuild, err) := GetLastBuild (jenkins l) j in
      result <- match err with
                | Some e => ret (fmt.Sprintf_UNKNOWN e)
                | None => b <- deref lastBuild ;; ret (GetResult b)
                end ;;
      let marker :=
        if String.eqb result "SUCCESS" then Good markers
        else if String.eqb result "FAILURE" then Bad markers
        else Unknown markers in
      b <- deref lastBuild ;;
      fmt.Printf_status marker (jobName l) (GetUrl b) ;;;
      fmt.Printf_result result ;;;
      b <- deref lastBuild ;;
      let consoleOutput := GetConsoleOutput b in
      (if salt l
       then forRange (getFailedSaltStates consoleOutput) fmt.Println
       else fmt.Printf consoleOutput) ;;;
      b <- deref lastBuild ;;
      fmt.Printf_consoleText (GetUrl b) ;;;
      ret None
  end.

End commands.

(** The environment variables [main] reads. *)
Record Environ : Type := {
  JENKINS_URL : string;
  JENKINS_USER : string;
  JENKINS_PW : string
}.

(** What [kingpin.Parse] leaves: the selected command, the arguments and
    the flags, and the text [kingpin.Usage] writes. *)
Record CommandLine : Type := {
  command : string;
  statusRegexArg : string;
  logsJobArg : string;
  queueRegexArg : string;
  openRegexArg : string;
  verbose : bool;
  saltFlag : bool;
  Usage : string
}.

(** [log.Fatal] and [log.Fatalf] of a message that does not end in a
    newline: the logger adds one. *)
Definition log_Fatal {A} (message : string) : Cmd A :=
  log_Fatalf (message ++ newline).

(** The end of [main]: [if err != nil { log.Fatalf(...) }]. *)
Definition reportError (err : option error) : Cmd unit :=
  match err with
  | Some e => log_Fatal ("Cannot execute command: " ++ e)
  | None => ret tt
  end.

(** How the process goes on: to its end on the main goroutine, or into the
    fan-out of [status] or of [nodes], after which [err] is [nil] and [main]
    returns. *)
Inductive Process : Type :=
| Ran (c : Cmd unit)
| RunsStatus (s : FanState InnerJob)
| RunsNodes (s : FanState Node).

Definition main `{RegexpEngine} (markers : Markers)
    (CreateJenkins : string -> string -> string -> Session)
    (env : Environ) (cli : CommandLine) : Process :=
  if (String.length (JENKINS_URL env) =? 0)%nat
  then Ran (log_Fatal "Please set JENKINS_URL")
  else if (String.length (JENKINS_USER env) =? 0)%nat
  then Ran (log_Fatal "Please set JENKINS_USER")
  else
    let session :=
      CreateJenkins (JENKINS_URL env) (JENKINS_USER env) (JENKINS_PW env) in
    match Init session with
    | Some e => Ran ([], Panic ("Cannot authenticate: " ++ e)%string)
    | None =>
        if String.eqb (command cli) "status" then
          match statusExec (client session) (statusRegexArg cli) with
          | inl e => Ran (reportError (Some e))
          | inr s => RunsStatus s
          end
        else if String.eqb (command cli) "logs" then
          Ran (err <- logsExec markers (client session) (logsJobArg cli) (saltFlag cli) ;;
               reportError err)
        else if String.eqb (command cli) "queue" then
          Ran (err <- queue session (queueRegexArg cli) (verbose cli) (saltFlag cli) ;;
               reportError err)
        else if String.eqb (command cli) "nodes" then
          match nodes (client session) with
          | inl e => Ran (reportError (Some e))
          | inr s => RunsNodes s
          end
        else if String.eqb (command cli) "open" then
          Ran (err <- openExec (client session) (openRegexArg cli) ;;
               reportError err)
        else Ran (emit (Stderr (Usage cli)))
    end.

(** ** Schedules that bring a fan-out to its end *)

Section Completion.

Variable Item : Type.

(** The moves goroutine [i] still has to make. *)
Definition moves (i : nat) (g : Item * Phase) : list Choice :=
  match snd g with
  | Spawned => [Goroutine i; Goroutine i]
  | Exiting => [Goroutine i]
  | Finished => []
  end.

Fixpoint finishFrom (i : nat) (gs : list (Item * Phase)) : list Choice :=
  match gs with
  | [] => []
  | g :: gs' => moves i g ++ finishFrom (S i) gs'
  end.

(** From where the command is: end the loop, let every goroutine finish in
    turn, pass [Wait]. *)
Definition completion (s : FanState Item) : list Choice :=
  match pc s with
  | Looping rest =>
      repeat Main (S (List.length rest))
      ++ finishFrom 0 (goroutines s ++ map spawned rest) ++ [Main]
  | Waiting => finishFrom 0 (goroutines s) ++ [Main]
  | Returned | Crashed => []
  end.

End Completion.

Arguments moves {Item} i g.
Arguments finishFrom {Item} i gs.
Arguments completion {Item} s.

(** Every ["%"] doubled: the text that stands for itself as a format. *)
Fixpoint escapePercent (s : string) : string :=
  match s with
  | EmptyString => EmptyString
  | String c s' =>
      if Ascii.eqb c "%" then String "%" (String "%" (escapePercent s'))
      else String c (escapePercent s')
  end.

(** No byte of [s] is a hyphen. *)
Fixpoint hyphenFree (s : string) : bool :=
  match s with
  | EmptyString => true
  | String c s' => negb (Ascii.eqb c "-") && hyphenFree s'
  end.

(** ** An example start of the program *)

Module start.

Definition env : Environ :=
  {| JENKINS_URL := "http://ci"; JENKINS_USER := "admin"; JENKINS_PW := "" |}.


(** The example server behind every URL; its queue is empty. *)
Definition CreateJenkins (url user password : string) : Session :=
  {| client := example.jenkins;
     Init := None;
     GetQueue := (Some {| QueueRaw := "&{[]}" |}, None) |}.

Definition cli (command job : string) (salt : bool) : CommandLine :=
  {| command := command;
     statusRegexArg := ".*";
     logsJobArg := job;
     queueRegexArg := ".*";
     openRegexArg := ".*";
     verbose := false;
     saltFlag := salt;
     Usage := "usage: riffraff [<flags>] <command> [<args> ...]" |}.

End start.

(** * Properties *)

(** ** Strings *)

Section StringFacts.

Local Open Scope string_scope.

Lemma append_assoc (a b c : string) : (a ++ b) ++ c = a ++ (b ++ c).
Proof. induction a as [|x a IH]; simpl; [reflexivity | now rewrite IH]. Qed.

Lemma append_empty_r (s : string) : s ++ "" = s.
Proof. induction s as [|x s IH]; simpl; [reflexivity | now rewrite IH]. Qed.

Lemma length_append (a b : string) :
  String.length (a ++ b) = String.length a + String.length b.
Proof. induction a as [|x a IH]; simpl; [reflexivity | now rewrite IH]. Qed.

Lemma take_drop (n : nat) (s : string) : strings.take n s ++ strings.drop n s = s.
Proof.
  revert s; induction n as [|n IH]; intros [|c s]; simpl; try reflexivity.
  now rewrite IH.
Qed.

Lemma length_take (n : nat) (s : string) :
  n <= String.length s -> String.length (strings.take n s) = n.
Proof.
  revert s; induction n as [|n IH]; intros [|c s]; simpl; intros Hn;
    try reflexivity; try lia.
  rewrite IH; lia.
Qed.

Lemma length_drop (n : nat) (s : string) :
  String.length (strings.drop n s) = String.length s - n.
Proof.
  revert s; induction n as [|n IH]; intros [|c s]; simpl; try reflexivity.
  apply IH.
Qed.

Lemma drop_add (n m : nat) (s : string) :
  strings.drop (n + m) s = strings.drop m (strings.drop n s).
Proof.
  revert s; induction n as [|n IH]; intros [|c s]; simpl; try reflexivity.
  - now destruct m.
  - apply IH.
Qed.

Lemma HasPrefix_append (p r : string) : strings.HasPrefix (p ++ r) p = true.
Proof.
  induction p as [|x p IH]; simpl; [reflexivity|].
  now rewrite Ascii.eqb_refl, IH.
Qed.

Lemma HasPrefix_true (s p : string) :
  strings.HasPrefix s p = true -> s = p ++ strings.drop (String.length p) s.
Proof.
  revert s; induction p as [|x p IH]; intros s Hp; simpl in *.
  - reflexivity.
  - destruct s as [|c s]; [discriminate|].
    apply andb_prop in Hp as [Hc Hs].
    apply Ascii.eqb_eq in Hc; subst c.
    simpl. now rewrite <- (IH s Hs).
Qed.

Lemma Index_unfold (s substr : string) :
  strings.Index s substr =
  if strings.HasPrefix s substr then 0%Z
  else match s with
       | EmptyString => (-1)%Z
       | String _ s' =>
           if (strings.Index s' substr <? 0)%Z then (-1)%Z
           else (strings.Index s' substr + 1)%Z
       end.
Proof. destruct s; reflexivity. Qed.

Lemma Index_lower (s substr : string) : (-1 <= strings.Index s substr)%Z.
Proof.
  induction s as [|c s IH]; rewrite Index_unfold.
  - destruct (strings.HasPrefix "" substr); lia.
  - destruct (strings.HasPrefix (String c s) substr); [lia|].
    destruct (Z.ltb_spec (strings.Index s substr) 0); lia.
Qed.

(** Where [Index] points, [substr] begins. *)
Lemma Index_found (s substr : string) :
  (0 <= strings.Index s substr)%Z ->
  strings.HasPrefix (strings.drop (Z.to_nat (strings.Index s substr)) s) substr = true.
Proof.
  induction s as [|c s IH]; rewrite Index_unfold.
  - destruct (strings.HasPrefix "" substr) eqn:Hp; intros Hm; [exact Hp | lia].
  - destruct (strings.HasPrefix (String c s) substr) eqn:Hp; intros Hm; [exact Hp|].
  destruct (Z.ltb_spec (strings.Index s substr) 0) as [Hlt|Hge]; [lia|].
  replace (Z.to_nat (strings.Index s substr + 1)) with (S (Z.to_nat (strings.Index s substr)))
    by lia.
  simpl. apply IH, Hge.
Qed.

(** No instance of [substr] begins before the place [Index] points to. *)
Lemma Index_least (a substr b : string) :
  (0 <= strings.Index (a ++ substr ++ b) substr <= Z.of_nat (String.length a))%Z.
Proof.
  induction a as [|c a IH]; rewrite Index_unfold.
  - simpl. rewrite HasPrefix_append. lia.
  - destruct (strings.HasPrefix (String c a ++ substr ++ b) substr); [simpl; lia|].
    change (String c a ++ substr ++ b) with (String c (a ++ substr ++ b)).
    cbv beta iota.
    destruct (Z.ltb_spec (strings.Index (a ++ substr ++ b) substr) 0) as [Hlt|Hge];
      simpl String.length; lia.
Qed.

Lemma Index_split (s substr : string) :
  (0 <= strings.Index s substr)%Z ->
  let m := Z.to_nat (strings.Index s substr) in
  s = strings.take m s ++ substr ++ strings.drop (m + String.length substr) s.
Proof.
  intros Hm m.
  pose proof (Index_found s substr Hm) as Hp.
  apply HasPrefix_true in Hp. fold m in Hp.
  rewrite drop_add, <- Hp. symmetry; apply take_drop.
Qed.

Lemma Contains_iff (s substr : string) :
  strings.Contains s substr = true <-> exists a b, s = a ++ substr ++ b.
Proof.
  unfold strings.Contains; split.
  - intros Hc. apply Z.leb_le in Hc.
    eexists _, _. apply (Index_split s substr Hc).
  - intros (a & b & ->). apply Z.leb_le. apply Index_least.
Qed.

Lemma Index_upper (s substr : string) :
  (strings.Index s substr <= Z.of_nat (String.length s))%Z.
Proof.
  induction s as [|c s IH]; rewrite Index_unfold.
  - destruct (strings.HasPrefix "" substr); simpl; lia.
  - destruct (strings.HasPrefix (String c s) substr); [lia|].
    destruct (Z.ltb_spec (strings.Index s substr) 0); simpl String.length; lia.
Qed.

Lemma Index_bound (s substr : string) :
  (0 <= strings.Index s substr)%Z ->
  Z.to_nat (strings.Index s substr) + String.length substr <= String.length s.
Proof.
  intros Hm. pose proof (Index_split s substr Hm) as Hs. simpl in Hs.
  pose proof (Index_upper s substr) as Hu.
  apply (f_equal String.length) in Hs.
  rewrite !length_append, length_take in Hs by lia.
  lia.
Qed.

Lemma genSplit_cons (fuel : nat) (s sep : string) :
  exists x xs, strings.genSplit fuel s sep = x :: xs.
Proof.
  destruct fuel as [|fuel]; simpl; [now eexists _, _|].
  destruct (strings.Index s sep <? 0)%Z; now eexists _, _.
Qed.

(** Joining the segments with the separator gives the text back. *)
Lemma genSplit_concat (fuel : nat) (s sep : string) :
  String.concat sep (strings.genSplit fuel s sep) = s.
Proof.
  revert s; induction fuel as [|fuel IH]; intros s; simpl; [reflexivity|].
  destruct (Z.ltb_spec (strings.Index s sep) 0) as [Hlt|Hge]; [reflexivity|].
  destruct (genSplit_cons fuel
              (strings.drop (Z.to_nat (strings.Index s sep) + String.length sep) s) sep)
    as (x & xs & Hx).
  pose proof (IH (strings.drop (Z.to_nat (strings.Index s sep) + String.length sep) s)) as IH'.
  rewrite Hx in *. simpl String.concat in *.
  rewrite IH'. symmetry. apply (Index_split s sep Hge).
Qed.

(** No segment holds the separator. *)
Lemma genSplit_free (fuel : nat) (s sep : string) :
  sep <> "" -> String.length s <= fuel ->
  Forall (fun seg => strings.Contains seg sep = false) (strings.genSplit fuel s sep).
Proof.
  intros Hsep. assert (0 < String.length sep) as Hlen by (destruct sep; simpl; [congruence|lia]).
  revert s; induction fuel as [|fuel IH]; intros s Hs; simpl.
  - constructor; [|constructor].
    destruct s; [|simpl in Hs; lia].
    destruct sep; [congruence|reflexivity].
  - destruct (Z.ltb_spec (strings.Index s sep) 0) as [Hlt|Hge].
    + constructor; [|constructor]. unfold strings.Contains. apply Z.leb_gt, Hlt.
    + pose proof (Index_bound s sep Hge) as Hb.
      constructor.
      * destruct (strings.Contains _ sep) eqn:Hc; [exfalso|reflexivity].
        apply Contains_iff in Hc as (a & b & Hab).
        pose proof (take_drop (Z.to_nat (strings.Index s sep)) s) as Htd.
        rewrite Hab, !append_assoc in Htd.
        pose proof (Index_least a sep (b ++ strings.drop (Z.to_nat (strings.Index s sep)) s)) as Hl.
        rewrite Htd in Hl.
        apply (f_equal String.length) in Hab.
        rewrite length_take, !length_append in Hab by lia.
        lia.
      * apply IH. rewrite length_drop. lia.
Qed.

End StringFacts.

(** ** The salt filter *)

Lemma fold_keepFailed (states acc : list string) :
  fold_left keepFailed states acc
  = acc ++ filter (fun state => strings.Contains state saltFailure) states.
Proof.
  revert acc; induction states as [|state states IH]; intros acc; simpl.
  - now rewrite app_nil_r.
  - rewrite IH. unfold keepFailed.
    destruct (strings.Contains state saltFailure); [|reflexivity].
    now rewrite <- app_assoc.
Qed.

(** C4.  The salt filter cuts the console output at every ten-hyphen
    separator (joining the segments with the separator gives the output
    back, and no segment holds a separator) and returns, in their order,
    exactly the segments that contain [Result: False], each in full. *)
Theorem getFailedSaltStates_failed_segments (output : string) :
  let segments := strings.Split output saltSeparator in
  String.concat saltSeparator segments = output /\
  Forall (fun seg => strings.Contains seg saltSeparator = false) segments /\
  getFailedSaltStates output
  = filter (fun seg => strings.Contains seg saltFailure) segments /\
  (forall seg, In seg (getFailedSaltStates output) <->
     In seg segments /\ exists a b, seg = (a ++ saltFailure ++ b)%string).
Proof.
  intros segments. unfold segments, strings.Split.
  split; [apply genSplit_concat|].
  split; [apply genSplit_free; [discriminate | apply Nat.le_refl]|].
  assert (getFailedSaltStates output
          = filter (fun seg => strings.Contains seg saltFailure)
              (strings.genSplit (String.length output) output saltSeparator)) as Hf.
  { unfold getFailedSaltStates, strings.Split. now rewrite fold_keepFailed. }
  split; [exact Hf|].
  intros seg. rewrite Hf, filter_In, Contains_iff. reflexivity.
Qed.

Example getFailedSaltStates_spec_example :
  getFailedSaltStates "A----------B Result: False C----------D"
  = ["B Result: False C"].
Proof. reflexivity. Qed.

(** ** The status marker *)

Lemma lastBuildResult_error (lastBuild : option Build) (e : error) :
  lastBuildResult lastBuild (Some e) = ret ("UNKNOWN (" ++ e ++ ")")%string.
Proof. reflexivity. Qed.

(** C6.  ["SUCCESS"] gives the Good marker, ["FAILURE"] the Bad marker, and
    every other result string the Unknown marker; so does the string
    ["UNKNOWN (<error>)"] that stands for the result when the last build
    cannot be fetched. *)
Theorem statusMarker_mapping (markers : Markers) :
  statusMarker markers "SUCCESS" = Good markers /\
  statusMarker markers "FAILURE" = Bad markers /\
  (forall result, result <> "SUCCESS" -> result <> "FAILURE" ->
     statusMarker markers result = Unknown markers) /\
  (forall lastBuild e, exists result,
     lastBuildResult lastBuild (Some e) = ret result /\
     result = ("UNKNOWN (" ++ e ++ ")")%string /\
     statusMarker markers result = Unknown markers).
Proof.
  repeat split; try reflexivity.
  - intros result Hs Hf. unfold statusMarker.
    apply String.eqb_neq in Hs, Hf. now rewrite Hs, Hf.
  - intros lastBuild e. eexists; repeat split.
Qed.

(** [ABORTED] is neither of the two: the Unknown marker. *)
Lemma statusMarker_mapping_witness :
  statusMarker example.markers "ABORTED" = "?".
Proof.
  apply (proj1 (proj2 (proj2 (statusMarker_mapping example.markers))));
    discriminate.
Defined.

(** ** [fmt.Printf] with the console output as its format *)

Lemma literal_append (format : string) :
  (fst (fmt.literal format) ++ snd (fmt.literal format))%string = format.
Proof.
  induction format as [|c s IH]; simpl; [reflexivity|].
  destruct (Ascii.eqb c "%"); [reflexivity|].
  destruct (fmt.literal s) as [l r]. simpl in *. now rewrite IH.
Qed.

(** A text with no ["%"] is written as it is. *)
Lemma doPrintf_no_percent (format : string) :
  strings.Contains format "%" = false ->
  fmt.doPrintf (S (String.length format)) format = format.
Proof.
  intros Hc.
  assert (fmt.literal format = (format, EmptyString)) as Hl.
  { induction format as [|c s IH]; simpl; [reflexivity|].
    destruct (Ascii.eqb c "%") eqn:Hp.
    - apply Ascii.eqb_eq in Hp; subst c. discriminate Hc.
    - rewrite IH; [reflexivity|].
      destruct (strings.Contains s "%") eqn:Hs; [|reflexivity].
      apply Contains_iff in Hs as (a & b & ->).
      assert (strings.Contains (String c (a ++ "%" ++ b)) "%" = true) as Hc'.
      { apply Contains_iff. now exists (String c a), b. }
      congruence. }
  simpl. now rewrite Hl.
Qed.

(** C2, at the input that fails: a console output that ends in ["%"] is
    not written as it is, [fmt.Printf] reports a verb that is not there. *)
Example logsExec_console_percent :
  GetLastBuild example.jenkins {| Base := "build-api" |}
  = (Some {| GetResult := "SUCCESS";
             GetUrl := "http://ci/job/build-api/7/";
             GetConsoleOutput := "Progress: 100%" |}, None) /\
  stdout (fst (logsExec example.markers example.jenkins "build-api" false))
  = [ ("OK build-api (http://ci/job/build-api/7/)" ++ newline)%string;
      ("Jenkins result code: SUCCESS" ++ newline)%string;
      "Progress: 100%!(NOVERB)";
      ("http://ci/job/build-api/7//consoleText" ++ newline)%string ].
Proof. split; reflexivity. Qed.

(** ** The job matcher *)

Section Matcher.

Context `{RegexpEngine}.
Variable jenkins : Jenkins.

Lemma fold_keepMatching (regex : string) (jobs acc : list InnerJob) :
  fold_left (keepMatching regex) jobs acc = acc ++ filter (matches regex) jobs.
Proof.
  revert acc; induction jobs as [|job jobs IH]; intros acc; simpl.
  - now rewrite app_nil_r.
  - rewrite IH. unfold keepMatching, matches.
    destruct (regexp.MatchString regex (Name job)) as [[|] err]; simpl;
      [now rewrite <- app_assoc | reflexivity].
Qed.

Lemma findMatchingJobs_filter (regex : string) (J : list InnerJob) :
  GetAllJobNames jenkins = (J, None) ->
  findMatchingJobs jenkins regex = (filter (matches regex) J, None).
Proof.
  intros HJ. unfold findMatchingJobs. rewrite HJ.
  now rewrite fold_keepMatching.
Qed.

Lemma filter_all {A} (f : A -> bool) (l : list A) :
  (forall x, In x l -> f x = true) -> filter f l = l.
Proof.
  induction l as [|x l IH]; intros Hf; simpl; [reflexivity|].
  rewrite (Hf x (or_introl eq_refl)), IH; [reflexivity|].
  intros y Hy. apply Hf. now right.
Qed.

Lemma filter_none {A} (f : A -> bool) (l : list A) :
  (forall x, In x l -> f x = false) -> filter f l = [].
Proof.
  induction l as [|x l IH]; intros Hf; simpl; [reflexivity|].
  rewrite (Hf x (or_introl eq_refl)). apply IH.
  intros y Hy. apply Hf. now right.
Qed.

(** C5.  When the server lists the jobs [J], the matcher returns the jobs
    of [J] whose name the pattern [P] matches (as the search of the engine
    decides, anywhere in the name), in the order of [J] and no other; with a
    pattern that matches every name, as [.*] does, it returns [J]. *)
Theorem findMatchingJobs_subsequence (J : list InnerJob) (P : string) :
  GetAllJobNames jenkins = (J, None) ->
  findMatchingJobs jenkins P = (filter (matches P) J, None) /\
  (forall job, In job (fst (findMatchingJobs jenkins P)) <->
     In job J /\ fst (regexp.MatchString P (Name job)) = true) /\
  ((forall name, fst (regexp.MatchString ".*" name) = true) ->
   findMatchingJobs jenkins ".*" = (J, None)).
Proof.
  intros HJ. split; [now apply findMatchingJobs_filter|]. split.
  - intros job. rewrite (findMatchingJobs_filter P J HJ). simpl.
    now rewrite filter_In.
  - intros Hall. rewrite (findMatchingJobs_filter ".*" J HJ).
    rewrite filter_all; [reflexivity|].
    intros job _. apply Hall.
Qed.

(** C8.  When the pattern does not compile, the match of every job fails
    with the error of the compilation, the loop keeps no job and drops the
    error, and the matcher returns the empty list and no error. *)
Theorem findMatchingJobs_malformed (J : list InnerJob) (P : string) (e : error) :
  GetAllJobNames jenkins = (J, None) ->
  Compile P = inr e ->
  (forall name, regexp.MatchString P name = (false, Some e)) /\
  (forall job acc, keepMatching P acc job = acc) /\
  findMatchingJobs jenkins P = ([], None).
Proof.
  intros HJ HP.
  assert (forall name, regexp.MatchString P name = (false, Some e)) as Hm.
  { intros name. unfold regexp.MatchString. now rewrite HP. }
  split; [exact Hm|]. split.
  - intros job acc. unfold keepMatching. now rewrite Hm.
  - rewrite (findMatchingJobs_filter P J HJ).
    rewrite filter_none; [reflexivity|].
    intros job _. unfold matches. now rewrite Hm.
Qed.

(** ** [open] *)

Lemma forRange_open (jobs : list InnerJob) :
  forRange jobs (fun job => open_Run (Url job))
  = (map (fun job => OpenRun (Url job)) jobs, Ret tt).
Proof.
  induction jobs as [|job jobs IH]; simpl; [reflexivity|].
  now rewrite IH.
Qed.

Lemma opened_map_OpenRun (urls : list string) :
  opened (map OpenRun urls) = urls.
Proof. induction urls as [|u urls IH]; simpl; [reflexivity | now rewrite IH]. Qed.

(** C7.  When the pattern selects four jobs or more, [open] ends the
    process with a diagnostic and hands no URL to the browser; when it
    selects three or fewer, it hands the URL of each job to the browser,
    one after the other in the order of the jobs, and returns no error. *)
Theorem openExec_guard (regex : string) (jobs : list InnerJob) :
  findMatchingJobs jenkins regex = (jobs, None) ->
  (4 <= List.length jobs ->
   openExec jenkins regex = ([Stderr tooManyJobs], Exit 1%Z) /\
   opened (fst (openExec jenkins regex)) = []) /\
  (List.length jobs <= 3 ->
   openExec jenkins regex = (map (fun job => OpenRun (Url job)) jobs, Ret None) /\
   opened (fst (openExec jenkins regex)) = map Url jobs).
Proof.
  intros Hjobs. unfold openExec. rewrite Hjobs. split; intros Hlen.
  - destruct (Nat.ltb_spec 3 (List.length jobs)) as [_|Hle]; [|lia].
    split; reflexivity.
  - destruct (Nat.ltb_spec 3 (List.length jobs)) as [Hlt|_]; [lia|].
    assert ((ret tt ;;; forRange jobs (fun job => open_Run (Url job)) ;;; ret None)
            = (map (fun job => OpenRun (Url job)) jobs, @Ret (option error) None)) as Hrun.
    { unfold bind at 1. simpl. rewrite forRange_open. simpl.
      now rewrite app_nil_r. }
    rewrite Hrun. split; [reflexivity|]. simpl.
    rewrite <- (map_map Url OpenRun). apply opened_map_OpenRun.
Qed.

End Matcher.

Lemma miniregexp_dotstar (name : string) :
  fst (regexp.MatchString ".*" name) = true.
Proof. destruct name; reflexivity. Qed.

(** On the example server: [api] selects the two jobs that hold it, in the
    order of the listing, and [.*] selects every job. *)
Lemma findMatchingJobs_subsequence_witness :
  findMatchingJobs example.jenkins "api"
  = ([ {| Name := "build-api";  Url := "http://ci/job/build-api/" |};
       {| Name := "deploy-api"; Url := "http://ci/job/deploy-api/" |} ], None) /\
  findMatchingJobs example.jenkins ".*" = (example.jobs, None).
Proof.
  destruct (findMatchingJobs_subsequence (H := miniRegexp) example.jenkins example.jobs
              "api" eq_refl)
    as [Hfilter [_ Hall]].
  split; [exact Hfilter | exact (Hall miniregexp_dotstar)].
Defined.

(** On the example server: [*] does not compile, and no job is selected. *)
Lemma findMatchingJobs_malformed_witness :
  findMatchingJobs example.jenkins "*" = ([], None).
Proof.
  exact (proj2 (proj2 (findMatchingJobs_malformed (H := miniRegexp)
                         example.jenkins example.jobs "*"
                         "error parsing regexp: missing argument to repetition operator: `*`"
                         eq_refl eq_refl))).
Defined.

(** On the example server: [.*] selects four jobs and nothing is opened;
    [-] selects three, opened in their order. *)
Lemma openExec_guard_witness :
  opened (fst (openExec example.jenkins ".*")) = [] /\
  opened (fst (openExec example.jenkins "-"))
  = [ "http://ci/job/build-api/"; "http://ci/job/build-web/"; "http://ci/job/deploy-api/" ].
Proof.
  split.
  - destruct (openExec_guard (H := miniRegexp) example.jenkins ".*" example.jobs eq_refl)
      as [Hmany _].
    apply Hmany. simpl. lia.
  - destruct (openExec_guard (H := miniRegexp) example.jenkins "-" (firstn 3 example.jobs)
                eq_refl) as [_ Hfew].
    apply Hfew. simpl. lia.
Defined.

(** ** [logs] *)

Lemma bind_no_error {A} (c : Cmd A) (k : A -> Cmd (option error)) :
  (forall a e, snd (k a) <> Ret (Some e)) ->
  forall e, snd (x <- c ;; k x) <> Ret (Some e).
Proof.
  intros Hk e. destruct c as [t [a|r|n]]; simpl; try discriminate.
  specialize (Hk a e). destruct (k a) as [t' o]. exact Hk.
Qed.

Section Logs.

Variable markers : Markers.
Variable jenkins : Jenkins.

(** C10.  When the job is resolved and [GetLastBuild] answers a nil build
    with an error, [logsExec] takes the error branch (the result string is
    ["UNKNOWN (<error>)"]) and then calls [GetUrl] on the nil build all the
    same: it panics on the nil dereference before it has written anything. *)
Theorem logsExec_nil_lastBuild (jobName : string) (salt : bool) (j : Job) (e : error) :
  GetJob jenkins jobName = (Some j, None) ->
  GetLastBuild jenkins j = (None, Some e) ->
  lastBuildResult None (Some e) = ret ("UNKNOWN (" ++ e ++ ")")%string /\
  (x <- lastBuildResult None (Some e) ;; deref (@None Build))
  = ([], Panic nilDereference) /\
  logsExec markers jenkins jobName salt = ([], Panic nilDereference).
Proof.
  intros Hjob Hbuild. repeat split.
  unfold logsExec. rewrite Hjob. simpl. rewrite Hbuild. reflexivity.
Qed.

(** C3, amended.  When the job cannot be resolved, [logsExec] writes nothing
    and returns the error of the resolution.  Once the job is resolved,
    [logsExec] returns no error at all: an error of the last-build fetch is
    not propagated, it becomes the result string ["UNKNOWN (<error>)"]. *)
Theorem logsExec_resolution_failure (jobName : string) (salt : bool) :
  (forall build e, GetJob jenkins jobName = (build, Some e) ->
     logsExec markers jenkins jobName salt = ([], Ret (Some e))) /\
  (forall build, GetJob jenkins jobName = (build, None) ->
     forall e, snd (logsExec markers jenkins jobName salt) <> Ret (Some e)) /\
  (forall lastBuild e,
     lastBuildResult lastBuild (Some e) = ret ("UNKNOWN (" ++ e ++ ")")%string).
Proof.
  split; [|split].
  - intros build e Hjob. unfold logsExec. now rewrite Hjob.
  - intros build Hjob. unfold logsExec. rewrite Hjob.
    apply bind_no_error. intros j.
    destruct (GetLastBuild jenkins j) as [lastBuild err].
    repeat (apply bind_no_error; intros). discriminate.
  - reflexivity.
Qed.

End Logs.

(** On the example server: the last build of [deploy-api]. *)
Lemma logsExec_nil_lastBuild_witness :
  logsExec example.markers example.jenkins "deploy-api" false
  = ([], Panic nilDereference).
Proof.
  exact (proj2 (proj2 (logsExec_nil_lastBuild example.markers example.jenkins
                         "deploy-api" false {| Base := "deploy-api" |} "404"
                         eq_refl eq_refl))).
Defined.

(** On the example server: [nightly] cannot be resolved. *)
Lemma logsExec_resolution_failure_witness :
  logsExec example.markers example.jenkins "nightly" true = ([], Ret (Some "404")).
Proof.
  exact (proj1 (logsExec_resolution_failure example.markers example.jenkins "nightly" true)
           None "404" eq_refl).
Defined.

(** C3 as the specification has it fails on [deploy-api], whose job is
    resolved and whose last build is not: the error [404] of the fetch is
    not what the command returns. *)
Lemma logsExec_lastBuild_failure_not_propagated :
  GetJob example.jenkins "deploy-api" = (Some {| Base := "deploy-api" |}, None) /\
  GetLastBuild example.jenkins {| Base := "deploy-api" |} = (None, Some "404") /\
  logsExec example.markers example.jenkins "deploy-api" false
  = ([], Panic nilDereference) /\
  logsExec example.markers example.jenkins "deploy-api" false
  <> ([], Ret (Some "404")).
Proof. repeat split. discriminate. Qed.

(** ** Fan-out *)

Section FanOutFacts.

Variable Item : Type.
Variable reporter : Item -> Cmd (option error).

Lemma run_app (a b : list Choice) (s : FanState Item) :
  run reporter (a ++ b) s
  = match run reporter a s with
    | Some s' => run reporter b s'
    | None => None
    end.
Proof.
  revert s; induction a as [|c a IH]; intros s; simpl; [reflexivity|].
  destruct (step reporter c s); [apply IH | reflexivity].
Qed.

Lemma replace_split {A} (l1 l2 : list A) (a b : A) (i : nat) :
  List.length l1 = i -> replace i b (l1 ++ a :: l2) = l1 ++ b :: l2.
Proof.
  intros <-. unfold replace.
  induction l1 as [|x l1 IH]; simpl; [reflexivity|].
  f_equal. exact IH.
Qed.

Lemma finished_app (l1 l2 : list (Item * Phase)) :
  finished (l1 ++ l2) = finished l1 + finished l2.
Proof. unfold finished. now rewrite filter_app, length_app. Qed.

Lemma finished_le (gs : list (Item * Phase)) : finished gs <= List.length gs.
Proof. apply filter_length_le. Qed.

Lemma finished_all (gs : list (Item * Phase)) :
  finished gs = List.length gs -> Forall (fun g => snd g = Finished) gs.
Proof.
  induction gs as [|[x p] gs IH]; intros Hall; constructor.
  - pose proof (finished_le gs) as Hle.
    change ((x, p) :: gs) with ([(x, p)] ++ gs) in Hall.
    rewrite finished_app in Hall. simpl in *.
    destruct p; simpl in *; try reflexivity; unfold finished in *; simpl in *; lia.
  - apply IH.
    pose proof (finished_le gs) as Hle.
    change ((x, p) :: gs) with ([(x, p)] ++ gs) in Hall.
    rewrite finished_app in Hall.
    assert (finished [(x, p)] <= 1) by apply (finished_le [(x, p)]).
    simpl in Hall. lia.
Qed.

Lemma flat_map_printed_finished (gs : list (Item * Phase)) :
  Forall (fun g => snd g = Finished) gs ->
  flat_map (printed reporter) gs = flat_map (fun x => fst (reporter x)) (map fst gs).
Proof.
  induction 1 as [|[x p] gs Hp _ IH]; simpl; [reflexivity|].
  simpl in Hp; subst p. unfold printed at 1. simpl. now rewrite IH.
Qed.

Lemma Inv_fanOut (items : list Item) : Inv reporter items (fanOut items).
Proof.
  right. simpl. repeat split; try constructor; try discriminate.
  unfold finished; simpl. lia.
Qed.

Lemma Inv_mainStep (items : list Item) (s s' : FanState Item) :
  Inv reporter items s -> mainStep s = Some s' -> Inv reporter items s'.
Proof.
  intros [Hc|(Hitems & Hwg & Hperm & Hret & Hdone)] Hstep; unfold mainStep in Hstep.
  - rewrite Hc in Hstep. discriminate.
  - destruct (pc s) as [[|x rest]| | |] eqn:Hpc; try discriminate.
    + injection Hstep as <-. right. simpl in *. repeat split; try assumption.
      discriminate.
    + injection Hstep as <-. right. simpl in *.
      rewrite map_app, <- app_assoc. simpl.
      rewrite finished_app, flat_map_app. unfold finished at 2. simpl.
      rewrite Nat.add_0_r, app_nil_r.
      repeat split; try assumption; try discriminate.
      apply Forall_app. split; [assumption|].
      constructor; [|constructor]. simpl. congruence.
    + destruct (Z.eqb_spec (waitGroup s) 0) as [Hz|]; [|discriminate].
      injection Hstep as <-. right. simpl in *. repeat split; try assumption.
      intros _. exact Hz.
Qed.

Lemma Inv_goroutineStep (items : list Item) (i : nat) (s s' : FanState Item) :
  Inv reporter items s -> goroutineStep reporter i s = Some s' -> Inv reporter items s'.
Proof.
  intros [Hc|(Hitems & Hwg & Hperm & Hret & Hdone)] Hstep; unfold goroutineStep in Hstep.
  - rewrite Hc in Hstep. discriminate.
  - assert (match nth_error (goroutines s) i with
            | Some (x, Spawned) =>
                match reporter x with
                | (t, Ret _) =>
                    Some {| pc := pc s; waitGroup := waitGroup s;
                            goroutines := replace i (x, Exiting) (goroutines s);
                            trace := trace s ++ t |}
                | (t, _) =>
                    Some {| pc := Crashed; waitGroup := waitGroup s;
                            goroutines := goroutines s; trace := trace s ++ t |}
                end
            | Some (x, Exiting) =>
                Some {| pc := pc s; waitGroup := (waitGroup s - 1)%Z;
                        goroutines := replace i (x, Finished) (goroutines s);
                        trace := trace s |}
            | _ => None
            end = Some s') as Hstep'.
    { destruct (pc s); [exact Hstep | exact Hstep | exact Hstep | discriminate]. }
    clear Hstep.
    destruct (nth_error (goroutines s) i) as [[x p]|] eqn:Hnth; [|discriminate].
    apply nth_error_split in Hnth as (l1 & l2 & Hgs & Hlen).
    rewrite Hgs in *.
    rewrite map_app, flat_map_app, finished_app in *. simpl in *.
    change ((x, p) :: l2) with ([(x, p)] ++ l2) in *.
    rewrite finished_app in *.
    apply Forall_app in Hret as [Hret1 Hret2].
    apply Forall_app in Hret2 as [Hretx Hret2].
    destruct p; try discriminate.
    + (* the body *)
      destruct (reporter x) as [t o] eqn:Hrep.
      destruct o as [e|r|n]; injection Hstep' as <-; [right | now left | now left].
      simpl. rewrite (replace_split l1 l2 (x, Spawned) (x, Exiting) i Hlen).
      change ((x, Exiting) :: l2) with ([(x, Exiting)] ++ l2).
      rewrite map_app, flat_map_app, !finished_app. simpl.
      repeat split; try assumption.
      * change (printed reporter (x, Exiting)) with (fst (reporter x)).
        rewrite Hrep. simpl fst.
        change (printed reporter (x, Spawned)) with (@nil Event) in Hperm.
        simpl in Hperm. rewrite Hperm.
        rewrite <- app_assoc. apply Permutation_app_head, Permutation_app_comm.
      * apply Forall_app. split; [assumption|].
        constructor; [|assumption]. simpl. intros _. now exists t, e.
    + (* the deferred Done *)
      injection Hstep' as <-. right.
      simpl. rewrite (replace_split l1 l2 (x, Exiting) (x, Finished) i Hlen).
      change ((x, Finished) :: l2) with ([(x, Finished)] ++ l2).
      rewrite map_app, flat_map_app, !finished_app. simpl.
      change (finished [(x, Exiting)]) with 0 in Hwg.
      repeat split; try assumption.
      * lia.
      * apply Forall_app. split; [assumption|].
        constructor; [|assumption]. simpl. intros _.
        apply (Forall_inv Hretx). simpl. discriminate.
      * intros Hpc. exfalso.
        specialize (Hdone Hpc). rewrite Hpc in Hitems. simpl in Hitems.
        rewrite app_nil_r in Hitems.
        apply (f_equal (@List.length Item)) in Hitems.
        rewrite length_app in Hitems. simpl in Hitems. rewrite !length_map in Hitems.
        pose proof (finished_le l1). pose proof (finished_le l2). lia.
Qed.

Lemma Inv_run (items : list Item) (schedule : list Choice) (s s' : FanState Item) :
  Inv reporter items s -> run reporter schedule s = Some s' -> Inv reporter items s'.
Proof.
  revert s; induction schedule as [|c schedule IH]; intros s Hinv Hrun; simpl in Hrun.
  - now injection Hrun as <-.
  - destruct (step reporter c s) as [s1|] eqn:Hstep; [|discriminate].
    apply (IH s1); [|assumption].
    destruct c as [|i]; simpl in Hstep.
    + now apply (Inv_mainStep items s).
    + now apply (Inv_goroutineStep items i s).
Qed.

(** When the command has returned, every goroutine has run its body and
    called [Done], none panicked, and what was written is what the
    reporters write, in some order. *)
Lemma fanOut_returned (items : list Item) (schedule : list Choice) (s : FanState Item) :
  run reporter schedule (fanOut items) = Some s ->
  pc s = Returned ->
  map fst (goroutines s) = items /\
  Forall (fun g => snd g = Finished) (goroutines s) /\
  waitGroup s = 0%Z /\
  Forall (returns reporter) items /\
  Permutation (trace s) (flat_map (fun x => fst (reporter x)) items).
Proof.
  intros Hrun Hpc.
  destruct (Inv_run items schedule _ s (Inv_fanOut items) Hrun)
    as [Hc|(Hitems & Hwg & Hperm & Hret & Hdone)]; [congruence|].
  specialize (Hdone Hpc). rewrite Hpc in Hitems. simpl in Hitems.
  rewrite app_nil_r in Hitems.
  assert (Forall (fun g => snd g = Finished) (goroutines s)) as Hfin.
  { apply finished_all.
    pose proof (f_equal (@List.length Item) Hitems) as Hlen.
    rewrite length_map in Hlen. lia. }
  repeat split; try assumption.
  - rewrite <- Hitems. apply Forall_map.
    apply Forall_forall. intros g Hg.
    rewrite Forall_forall in Hret, Hfin.
    apply (Hret g Hg). rewrite (Hfin g Hg). discriminate.
  - rewrite Hperm, flat_map_printed_finished, Hitems by assumption. reflexivity.
Qed.

End FanOutFacts.

(** *** A schedule on which the command returns *)

Section FanOutReturns.

Variable Item : Type.
Variable reporter : Item -> Cmd (option error).

Lemma nth_error_middle {A} (l1 l2 : list A) (a : A) :
  nth_error (l1 ++ a :: l2) (List.length l1) = Some a.
Proof. induction l1 as [|x l1 IH]; simpl; [reflexivity | exact IH]. Qed.

Lemma run_loop (rest : list Item) (w : Z) (gs : list (Item * Phase)) (t : list Event) :
  run reporter (repeat Main (List.length rest))
    {| pc := Looping rest; waitGroup := w; goroutines := gs; trace := t |}
  = Some {| pc := Looping []; waitGroup := w;
            goroutines := gs ++ map spawned rest; trace := t |}.
Proof.
  revert gs; induction rest as [|x rest IH]; intros gs; simpl.
  - now rewrite app_nil_r.
  - unfold mainStep. simpl. rewrite IH. now rewrite <- app_assoc.
Qed.

Lemma run_goroutine (l1 l2 : list (Item * Phase)) (x : Item) (w : Z)
    (t tx : list Event) (e : option error) :
  reporter x = (tx, Ret e) ->
  run reporter [Goroutine (List.length l1); Goroutine (List.length l1)]
    {| pc := Waiting; waitGroup := w;
       goroutines := l1 ++ spawned x :: l2; trace := t |}
  = Some {| pc := Waiting; waitGroup := (w - 1)%Z;
            goroutines := l1 ++ done x :: l2; trace := t ++ tx |}.
Proof.
  intros Hrep. unfold run, step, goroutineStep. simpl.
  rewrite nth_error_middle. unfold spawned at 1. rewrite Hrep. simpl.
  rewrite (replace_split l1 l2 (spawned x) (x, Exiting) _ eq_refl).
  rewrite nth_error_middle.
  now rewrite (replace_split l1 l2 (x, Exiting) (x, Finished) _ eq_refl).
Qed.

Lemma run_goroutines (todo finishedItems : list Item) (w : Z) (t : list Event) :
  Forall (returns reporter) todo ->
  run reporter
    (flat_map (fun i => [Goroutine i; Goroutine i])
       (seq (List.length finishedItems) (List.length todo)))
    {| pc := Waiting; waitGroup := w;
       goroutines := map done finishedItems ++ map spawned todo; trace := t |}
  = Some {| pc := Waiting; waitGroup := (w - Z.of_nat (List.length todo))%Z;
            goroutines := map done (finishedItems ++ todo);
            trace := t ++ flat_map (fun x => fst (reporter x)) todo |}.
Proof.
  revert finishedItems w t; induction todo as [|x todo IH];
    intros finishedItems w t Hret.
  - simpl. now rewrite !app_nil_r, Z.sub_0_r.
  - apply Forall_cons_iff in Hret as [(tx & e & Hx) Hret].
    change (flat_map (fun i => [Goroutine i; Goroutine i])
              (seq (List.length finishedItems) (List.length (x :: todo))))
      with ([Goroutine (List.length finishedItems); Goroutine (List.length finishedItems)]
            ++ flat_map (fun i => [Goroutine i; Goroutine i])
                 (seq (S (List.length finishedItems)) (List.length todo))).
    change (map spawned (x :: todo)) with (spawned x :: map spawned todo).
    rewrite run_app.
    rewrite <- (length_map done finishedItems) at 1 2.
    rewrite (run_goroutine _ _ x w t tx e Hx).
    replace (map done finishedItems ++ done x :: map spawned todo)
      with (map done (finishedItems ++ [x]) ++ map spawned todo)
      by (rewrite map_app, <- app_assoc; reflexivity).
    replace (S (List.length finishedItems)) with (List.length (finishedItems ++ [x]))
      by (rewrite length_app; simpl; lia).
    rewrite (IH (finishedItems ++ [x]) (w - 1)%Z (t ++ tx) Hret).
    cbn [flat_map]. rewrite Hx. cbn [fst].
    rewrite <- !app_assoc. cbn [app].
    do 2 f_equal. cbn [List.length]. lia.
Qed.

(** When no reporter panics, the command returns on the schedule [inTurn],
    after every reporter has finished. *)
Lemma fanOut_inTurn (items : list Item) :
  Forall (returns reporter) items ->
  run reporter (inTurn (List.length items)) (fanOut items)
  = Some {| pc := Returned; waitGroup := 0%Z;
            goroutines := map done items;
            trace := flat_map (fun x => fst (reporter x)) items |}.
Proof.
  intros Hret. unfold inTurn, fanOut.
  change (repeat Main (S (List.length items)))
    with (Main :: repeat Main (List.length items)).
  rewrite repeat_cons, <- app_assoc, run_app, run_loop. simpl app.
  cbn [run step]. unfold mainStep at 1. cbn [pc waitGroup goroutines trace].
  rewrite run_app.
  rewrite (run_goroutines items [] _ [] Hret).
  cbn [run step]. unfold mainStep. cbn [pc waitGroup goroutines trace].
  rewrite Z.sub_diag. reflexivity.
Qed.

End FanOutReturns.

(** *** What reaches standard output *)

Lemma stdout_app (t1 t2 : list Event) : stdout (t1 ++ t2) = stdout t1 ++ stdout t2.
Proof.
  induction t1 as [|[text|text|url] t1 IH]; simpl; try assumption.
  - reflexivity.
  - now rewrite IH.
Qed.

Lemma stdout_flat_map {A} (f : A -> list Event) (l : list A) :
  stdout (flat_map f l) = flat_map (fun x => stdout (f x)) l.
Proof.
  induction l as [|x l IH]; simpl; [reflexivity|].
  now rewrite stdout_app, IH.
Qed.

Lemma stdout_Permutation (t1 t2 : list Event) :
  Permutation t1 t2 -> Permutation (stdout t1) (stdout t2).
Proof.
  induction 1 as [|e t1 t2 _ IH|e1 e2 t|t1 t2 t3 _ IH1 _ IH2].
  - constructor.
  - destruct e; simpl; [now constructor | assumption | assumption].
  - destruct e1, e2; simpl; try reflexivity. apply perm_swap.
  - now transitivity (stdout t2).
Qed.

Lemma flat_map_length_filter {A B} (g : A -> list B) (keep : A -> bool) (l : list A) :
  (forall x, In x l -> List.length (g x) = if keep x then 1 else 0) ->
  List.length (flat_map g l) = List.length (filter keep l).
Proof.
  induction l as [|x l IH]; intros Hg; simpl; [reflexivity|].
  rewrite length_app, (Hg x (or_introl eq_refl)), IH
    by (intros y Hy; apply Hg; now right).
  now destruct (keep x).
Qed.

Section Reporters.

Context `{RegexpEngine}.
Variable markers : Markers.
Variable jenkins : Jenkins.

Lemma printStatus_stdout (job : InnerJob) :
  stdout (fst (printStatus markers jenkins job)) = statusLine markers jenkins job.
Proof.
  unfold printStatus, statusLine.
  destruct (GetJob jenkins (Name job)) as [[j|] [e|]]; try reflexivity.
  simpl. destruct (GetLastBuild jenkins j) as [[b|] [e|]]; reflexivity.
Qed.

Lemma printStatus_one_line (job : InnerJob) :
  returns (printStatus markers jenkins) job ->
  List.length (statusLine markers jenkins job)
  = if resolved jenkins job then 1 else 0.
Proof.
  intros (t & e & Hret). revert Hret.
  unfold printStatus, statusLine, resolved.
  destruct (GetJob jenkins (Name job)) as [[j|] [e'|]]; simpl;
    try reflexivity; try discriminate.
  destruct (GetLastBuild jenkins j) as [[b|] [e'|]]; simpl;
    try reflexivity; discriminate.
Qed.

Lemma printNodeStatus_stdout (node : Node) :
  stdout (fst (printNodeStatus jenkins node)) = nodeLine jenkins node.
Proof.
  unfold printNodeStatus, nodeLine.
  destruct (Poll jenkins node) as [polled perr]. simpl.
  destruct (IsOnline jenkins polled) as [[|] [e|]]; reflexivity.
Qed.

Lemma nodeLine_one_line (node : Node) :
  List.length (nodeLine jenkins node) = if answers jenkins node then 1 else 0.
Proof.
  unfold nodeLine, answers.
  destruct (IsOnline jenkins (fst (Poll jenkins node))) as [[|] [e|]]; reflexivity.
Qed.

Lemma printNodeStatus_returns (node : Node) :
  returns (printNodeStatus jenkins) node.
Proof.
  unfold returns, printNodeStatus.
  destruct (Poll jenkins node) as [polled perr].
  destruct (IsOnline jenkins polled) as [[|] [e|]]; simpl; now eexists _, _.
Qed.

(** C1, amended.  In [status] and in [nodes], on every schedule, when the
    command has returned every one of the N reporters has finished, and
    standard output holds, in some order, exactly one line for each job
    that is resolved (for each node whose online query answers) and none
    for the others: at most N lines, and N when every item is resolved.  A
    job whose last build cannot be fetched has its line, with the Unknown
    marker.  When no reporter panics there is a schedule on which the
    command returns. *)
Theorem fanOut_one_line_per_resolved_item :
  (forall regex jobs schedule s,
     findMatchingJobs jenkins regex = (jobs, None) ->
     run (printStatus markers jenkins) schedule (fanOut jobs) = Some s ->
     pc s = Returned ->
     statusExec jenkins regex = inr (fanOut jobs) /\
     map fst (goroutines s) = jobs /\
     Forall (fun g => snd g = Finished) (goroutines s) /\
     Permutation (stdout (trace s)) (flat_map (statusLine markers jenkins) jobs) /\
     List.length (stdout (trace s)) = List.length (filter (resolved jenkins) jobs) /\
     List.length (stdout (trace s)) <= List.length jobs) /\
  (forall ns schedule s,
     GetAllNodes jenkins = (ns, None) ->
     run (printNodeStatus jenkins) schedule (fanOut ns) = Some s ->
     pc s = Returned ->
     nodes jenkins = inr (fanOut ns) /\
     map fst (goroutines s) = ns /\
     Forall (fun g => snd g = Finished) (goroutines s) /\
     Permutation (stdout (trace s)) (flat_map (nodeLine jenkins) ns) /\
     List.length (stdout (trace s)) = List.length (filter (answers jenkins) ns) /\
     List.length (stdout (trace s)) <= List.length ns) /\
  (forall jobs, Forall (returns (printStatus markers jenkins)) jobs ->
     exists s, run (printStatus markers jenkins) (inTurn (List.length jobs)) (fanOut jobs)
               = Some s /\ pc s = Returned) /\
  (forall ns,
     exists s, run (printNodeStatus jenkins) (inTurn (List.length ns)) (fanOut ns)
               = Some s /\ pc s = Returned).
Proof.
  split; [|split; [|split]].
  - intros regex jobs schedule s Hjobs Hrun Hpc.
    destruct (fanOut_returned _ _ jobs schedule s Hrun Hpc)
      as (Hitems & Hfin & _ & Hret & Hperm).
    apply stdout_Permutation in Hperm. rewrite stdout_flat_map in Hperm.
    assert (Permutation (stdout (trace s)) (flat_map (statusLine markers jenkins) jobs))
      as Hlines.
    { rewrite Hperm. erewrite flat_map_ext; [reflexivity|].
      intros job. apply printStatus_stdout. }
    assert (List.length (stdout (trace s))
            = List.length (filter (resolved jenkins) jobs)) as Hlen.
    { rewrite (Permutation_length Hlines). apply flat_map_length_filter.
      intros job Hin. apply printStatus_one_line.
      rewrite Forall_forall in Hret. now apply Hret. }
    repeat split; try assumption.
    + unfold statusExec. now rewrite Hjobs.
    + rewrite Hlen. apply filter_length_le.
  - intros ns schedule s Hns Hrun Hpc.
    destruct (fanOut_returned _ _ ns schedule s Hrun Hpc)
      as (Hitems & Hfin & _ & Hret & Hperm).
    apply stdout_Permutation in Hperm. rewrite stdout_flat_map in Hperm.
    assert (Permutation (stdout (trace s)) (flat_map (nodeLine jenkins) ns)) as Hlines.
    { rewrite Hperm. erewrite flat_map_ext; [reflexivity|].
      intros node. apply printNodeStatus_stdout. }
    assert (List.length (stdout (trace s))
            = List.length (filter (answers jenkins) ns)) as Hlen.
    { rewrite (Permutation_length Hlines). apply flat_map_length_filter.
      intros node _. apply nodeLine_one_line. }
    repeat split; try assumption.
    + unfold nodes. now rewrite Hns.
    + rewrite Hlen. apply filter_length_le.
  - intros jobs Hret. eexists. split; [now apply fanOut_inTurn | reflexivity].
  - intros ns. eexists. split; [apply fanOut_inTurn | reflexivity].
    apply Forall_forall. intros node _. apply printNodeStatus_returns.
Qed.

(** C9, amended.  The reporter of a node polls the node and then asks the
    polled node whether it is online.  When that query fails, the reporter
    writes nothing and returns the error of the query; when it answers, the
    reporter writes the line of the node.  In [nodes], when the command has
    returned, standard output holds the lines of the nodes in some order, the
    line of every node whose query answers among them, whatever the other
    nodes answer. *)
Theorem printNodeStatus_poll_then_read :
  (forall node online e,
     IsOnline jenkins (fst (Poll jenkins node)) = (online, Some e) ->
     printNodeStatus jenkins node = ([], Ret (Some e))) /\
  (forall node online,
     IsOnline jenkins (fst (Poll jenkins node)) = (online, None) ->
     printNodeStatus jenkins node
     = ([Stdout (GetName (fst (Poll jenkins node))
                 ++ (if online then ": Online" else ": Offline") ++ newline)%string],
        Ret None)) /\
  (forall ns schedule s,
     GetAllNodes jenkins = (ns, None) ->
     run (printNodeStatus jenkins) schedule (fanOut ns) = Some s ->
     pc s = Returned ->
     Permutation (stdout (trace s)) (flat_map (nodeLine jenkins) ns) /\
     (forall node, In node ns -> answers jenkins node = true ->
        exists line, nodeLine jenkins node = [line] /\ In line (stdout (trace s)))).
Proof.
  split; [|split].
  - intros node online e Hq. unfold printNodeStatus.
    destruct (Poll jenkins node) as [polled perr]. simpl in Hq. now rewrite Hq.
  - intros node online Hq. unfold printNodeStatus.
    destruct (Poll jenkins node) as [polled perr]. simpl in *. rewrite Hq.
    now destruct online.
  - intros ns schedule s Hns Hrun Hpc.
    destruct (fanOut_returned _ _ ns schedule s Hrun Hpc)
      as (_ & _ & _ & _ & Hperm).
    apply stdout_Permutation in Hperm. rewrite stdout_flat_map in Hperm.
    assert (Permutation (stdout (trace s)) (flat_map (nodeLine jenkins) ns)) as Hlines.
    { rewrite Hperm. erewrite flat_map_ext; [reflexivity|].
      intros node. apply printNodeStatus_stdout. }
    split; [exact Hlines|].
    intros node Hin Hans.
    pose proof (nodeLine_one_line node) as Hone. rewrite Hans in Hone.
    destruct (nodeLine jenkins node) as [|line [|line' rest]] eqn:Hline;
      try discriminate.
    exists line. split; [reflexivity|].
    apply (Permutation_in line (Permutation_sym Hlines)).
    apply in_flat_map. exists node. split; [assumption|].
    rewrite Hline. now left.
Qed.

End Reporters.

(** *** On the example server *)

(** C1 as the specification has it fails on the example server: [nightly]
    cannot be resolved, its reporter returns the error to nobody and writes
    nothing, so [status] over four jobs writes three lines. *)
Lemma status_fewer_lines_than_jobs :
  statusExec example.jenkins ".*" = inr (fanOut example.jobs) /\
  List.length example.jobs = 4 /\
  printStatus example.markers example.jenkins
    {| Name := "nightly"; Url := "http://ci/job/nightly/" |}
  = ([], Ret (Some "404")) /\
  exists s,
    run (printStatus example.markers example.jenkins) (inTurn 4) (fanOut example.jobs)
    = Some s /\
    pc s = Returned /\
    stdout (trace s)
    = [ ("OK build-api (http://ci/job/build-api/)" ++ newline)%string;
        ("FAILED build-web (http://ci/job/build-web/)" ++ newline)%string;
        ("? deploy-api (http://ci/job/deploy-api/)" ++ newline)%string ].
Proof.
  split; [reflexivity|]. split; [reflexivity|]. split; [reflexivity|].
  eexists. split; [vm_compute; reflexivity|]. split; reflexivity.
Qed.

(** On the example server: [status] over the four jobs, three of them
    resolved. *)
Lemma fanOut_one_line_per_resolved_item_witness :
  exists s,
    run (printStatus example.markers example.jenkins) (inTurn 4) (fanOut example.jobs)
    = Some s /\
    List.length (stdout (trace s)) = 3.
Proof.
  eexists. split; [vm_compute; reflexivity|].
  refine (proj1 (proj2 (proj2 (proj2 (proj2
            (proj1 (fanOut_one_line_per_resolved_item (H := miniRegexp)
                      example.markers example.jenkins)
               ".*" example.jobs (inTurn 4) _ _ _ _))))));
    vm_compute; reflexivity.
Defined.

(** C9 as the specification has it fails on the example server: the poll
    of [agent-1] fails and its reporter writes the line of an online node
    and returns no error; the online query of [agent-2] fails and nothing
    shows it. *)
Lemma poll_error_not_propagated :
  Poll example.jenkins {| GetName := "agent-1"; Raw := "stale" |}
  = ({| GetName := "agent-1"; Raw := "stale" |}, Some "timeout") /\
  printNodeStatus example.jenkins {| GetName := "agent-1"; Raw := "stale" |}
  = ([Stdout ("agent-1: Online" ++ newline)%string], Ret None) /\
  printNodeStatus example.jenkins {| GetName := "agent-2"; Raw := "stale" |}
  = ([], Ret (Some "503")) /\
  nodes example.jenkins = inr (fanOut example.nodeList) /\
  exists s,
    run (printNodeStatus example.jenkins) (inTurn 3) (fanOut example.nodeList) = Some s /\
    pc s = Returned /\
    trace s = [ Stdout ("master: Online" ++ newline)%string;
                Stdout ("agent-1: Online" ++ newline)%string ].
Proof.
  split; [reflexivity|]. split; [reflexivity|]. split; [reflexivity|].
  split; [reflexivity|].
  eexists. split; [vm_compute; reflexivity|]. split; reflexivity.
Qed.

(** On the example server: the query of [agent-2] fails, [master] is
    online. *)
Lemma printNodeStatus_poll_then_read_witness :
  printNodeStatus example.jenkins {| GetName := "agent-2"; Raw := "stale" |}
  = ([], Ret (Some "503")) /\
  printNodeStatus example.jenkins {| GetName := "master"; Raw := "stale" |}
  = ([Stdout ("master: Online" ++ newline)%string], Ret None).
Proof.
  destruct (printNodeStatus_poll_then_read example.jenkins) as (Hfail & Hline & _).
  split.
  - exact (Hfail {| GetName := "agent-2"; Raw := "stale" |} false "503" eq_refl).
  - exact (Hline {| GetName := "master"; Raw := "stale" |} true eq_refl).
Defined.

(** ** More on the fan-out *)

Section FanOutMore.

Variable Item : Type.
Variable reporter : Item -> Cmd (option error).

(** The moves a goroutine can make, read off [goroutineStep]. *)
Lemma goroutineStep_cases (i : nat) (s s' : FanState Item) :
  goroutineStep reporter i s = Some s' ->
  pc s <> Crashed /\
  exists l1 l2 x, List.length l1 = i /\
    ((goroutines s = l1 ++ (x, Spawned) :: l2 /\
      ((exists t e, reporter x = (t, Ret e) /\
          s' = {| pc := pc s; waitGroup := waitGroup s;
                  goroutines := l1 ++ (x, Exiting) :: l2;
                  trace := trace s ++ t |}) \/
       ((forall t e, reporter x <> (t, Ret e)) /\
        pc s' = Crashed /\ waitGroup s' = waitGroup s))) \/
     (goroutines s = l1 ++ (x, Exiting) :: l2 /\
      s' = {| pc := pc s; waitGroup := (waitGroup s - 1)%Z;
              goroutines := l1 ++ (x, Finished) :: l2;
              trace := trace s |})).
Proof.
  unfold goroutineStep. intros Hstep.
  assert (pc s <> Crashed) as Hpc by (intros Hc; rewrite Hc in Hstep; discriminate).
  split; [exact Hpc|].
  assert (match nth_error (goroutines s) i with
          | Some (x, Spawned) =>
              match reporter x with
              | (t, Ret _) =>
                  Some {| pc := pc s; waitGroup := waitGroup s;
                          goroutines := replace i (x, Exiting) (goroutines s);
                          trace := trace s ++ t |}
              | (t, _) =>
                  Some {| pc := Crashed; waitGroup := waitGroup s;
                          goroutines := goroutines s; trace := trace s ++ t |}
              end
          | Some (x, Exiting) =>
              Some {| pc := pc s; waitGroup := (waitGroup s - 1)%Z;
                      goroutines := replace i (x, Finished) (goroutines s);
                      trace := trace s |}
          | _ => None
          end = Some s') as Hstep'.
  { destruct (pc s); [exact Hstep | exact Hstep | exact Hstep | congruence]. }
  clear Hstep.
  destruct (nth_error (goroutines s) i) as [[x p]|] eqn:Hnth; [|discriminate].
  apply nth_error_split in Hnth as (l1 & l2 & Hgs & Hlen).
  exists l1, l2, x. split; [exact Hlen|].
  rewrite Hgs in Hstep'.
  destruct p; try discriminate.
  - left. split; [exact Hgs|].
    destruct (reporter x) as [t [e|r|n]] eqn:Hrep; injection Hstep' as <-.
    + left. exists t, e. split; [reflexivity|].
      now rewrite (replace_split l1 l2 (x, Spawned) (x, Exiting) i Hlen).
    + right. repeat split. intros t' e'. discriminate.
    + right. repeat split. intros t' e'. discriminate.
  - right. split; [exact Hgs|]. injection Hstep' as <-.
    now rewrite (replace_split l1 l2 (x, Exiting) (x, Finished) i Hlen).
Qed.

Lemma Inv_step (items : list Item) (c : Choice) (s s' : FanState Item) :
  Inv reporter items s -> step reporter c s = Some s' -> Inv reporter items s'.
Proof.
  intros Hinv Hstep. destruct c as [|i]; simpl in Hstep.
  - now apply (Inv_mainStep _ reporter items s).
  - now apply (Inv_goroutineStep _ reporter items i s).
Qed.

Lemma step_waitGroup (items : list Item) (c : Choice) (s s' : FanState Item) :
  Inv reporter items s ->
  (0 <= waitGroup s <= Z.of_nat (List.length items))%Z ->
  step reporter c s = Some s' ->
  (0 <= waitGroup s' <= Z.of_nat (List.length items))%Z.
Proof.
  intros Hinv Hb Hstep. destruct c as [|i]; simpl in Hstep.
  - unfold mainStep in Hstep.
    destruct (pc s) as [[|x rest]| | |]; try discriminate.
    + now injection Hstep as <-.
    + now injection Hstep as <-.
    + destruct (waitGroup s =? 0)%Z; [|discriminate]. now injection Hstep as <-.
  - apply goroutineStep_cases in Hstep
      as (Hpc & l1 & l2 & x & Hlen
          & [(Hgs & [(t & e & _ & ->)|(_ & _ & ->)])|(Hgs & ->)]);
      try exact Hb.
    destruct Hinv as [Hc|(Hitems & Hwg & _)]; [contradiction|].
    simpl. rewrite Hgs in Hitems, Hwg.
    apply (f_equal (@List.length Item)) in Hitems.
    rewrite length_app, length_map, length_app in Hitems. simpl in Hitems.
    change ((x, Exiting) :: l2) with ([(x, Exiting)] ++ l2) in Hwg.
    rewrite !finished_app in Hwg. change (finished [(x, Exiting)]) with 0 in Hwg.
    pose proof (finished_le _ l1). pose proof (finished_le _ l2). lia.
Qed.

(** X1.  On every schedule the counter of the WaitGroup stays between zero
    and the number of items: [Done] is never called more often than [Add]
    allows. *)
Theorem waitGroup_in_bounds (items : list Item) (schedule : list Choice)
    (s : FanState Item) :
  run reporter schedule (fanOut items) = Some s ->
  (0 <= waitGroup s <= Z.of_nat (List.length items))%Z.
Proof.
  assert (forall sch s0,
            Inv reporter items s0 ->
            (0 <= waitGroup s0 <= Z.of_nat (List.length items))%Z ->
            run reporter sch s0 = Some s ->
            (0 <= waitGroup s <= Z.of_nat (List.length items))%Z) as Hgen.
  { induction sch as [|c sch IH]; intros s0 Hinv Hb Hrun; simpl in Hrun.
    - now injection Hrun as <-.
    - destruct (step reporter c s0) as [s1|] eqn:Hstep; [|discriminate].
      apply (IH s1); [now apply (Inv_step items c s0) | | assumption].
      now apply (step_waitGroup items c s0). }
  intros Hrun. apply (Hgen schedule (fanOut items)); [apply Inv_fanOut | | exact Hrun].
  simpl. lia.
Qed.

(** X2.  Once the command has returned nothing moves any more: no
    goroutine is left that could still write, and what standard output
    holds at the return is all there will be. *)
Theorem returned_is_final (items : list Item) (schedule more : list Choice)
    (s s' : FanState Item) :
  run reporter schedule (fanOut items) = Some s ->
  pc s = Returned ->
  run reporter more s = Some s' ->
  more = [] /\ s' = s.
Proof.
  intros Hrun Hpc Hmore.
  destruct (fanOut_returned _ reporter items schedule s Hrun Hpc)
    as (_ & Hfin & _).
  destruct more as [|c more]; simpl in Hmore.
  - now injection Hmore as <-.
  - exfalso. destruct (step reporter c s) as [s1|] eqn:Hstep; [|discriminate].
    destruct c as [|i]; simpl in Hstep.
    + unfold mainStep in Hstep. rewrite Hpc in Hstep. discriminate.
    + apply goroutineStep_cases in Hstep
        as (_ & l1 & l2 & x & _ & [(Hgs & _)|(Hgs & _)]);
        rewrite Hgs in Hfin; apply Forall_app in Hfin as [_ Hfin];
        apply Forall_inv in Hfin; discriminate.
Qed.

Lemma never_crashes (items : list Item) (schedule : list Choice) (s : FanState Item) :
  Forall (returns reporter) items ->
  run reporter schedule (fanOut items) = Some s ->
  pc s <> Crashed.
Proof.
  intros Hret.
  assert (forall sch s0,
            Inv reporter items s0 -> pc s0 <> Crashed ->
            run reporter sch s0 = Some s -> pc s <> Crashed) as Hgen.
  { induction sch as [|c sch IH]; intros s0 Hinv Hpc Hrun; simpl in Hrun.
    - now injection Hrun as <-.
    - destruct (step reporter c s0) as [s1|] eqn:Hstep; [|discriminate].
      apply (IH s1); [now apply (Inv_step items c s0) | | assumption].
      destruct c as [|i]; simpl in Hstep.
      + unfold mainStep in Hstep.
        destruct (pc s0) as [[|x rest]| | |]; try discriminate.
        * injection Hstep as <-. discriminate.
        * injection Hstep as <-. discriminate.
        * destruct (waitGroup s0 =? 0)%Z; [|discriminate].
          injection Hstep as <-. discriminate.
      + apply goroutineStep_cases in Hstep
          as (_ & l1 & l2 & x & _
              & [(Hgs & [(t & e & _ & ->)|(Hpanic & _)])|(Hgs & ->)]);
          try exact Hpc.
        exfalso. destruct Hinv as [Hc|(Hitems & _)]; [contradiction|].
        rewrite Hgs, map_app in Hitems. simpl in Hitems.
        rewrite Forall_forall in Hret.
        destruct (Hret x) as (t & e & Hx).
        { rewrite <- Hitems. rewrite <- app_assoc. apply in_or_app. right. now left. }
        exact (Hpanic t e Hx). }
  intros Hrun. apply (Hgen schedule (fanOut items)); [apply Inv_fanOut | | exact Hrun].
  discriminate.
Qed.

Lemma run_exiting (l1 l2 : list (Item * Phase)) (x : Item) (w : Z) (t : list Event) :
  run reporter [Goroutine (List.length l1)]
    {| pc := Waiting; waitGroup := w;
       goroutines := l1 ++ (x, Exiting) :: l2; trace := t |}
  = Some {| pc := Waiting; waitGroup := (w - 1)%Z;
            goroutines := l1 ++ done x :: l2; trace := t |}.
Proof.
  unfold run, step, goroutineStep. simpl.
  rewrite nth_error_middle.
  now rewrite (replace_split l1 l2 (x, Exiting) (x, Finished) _ eq_refl).
Qed.

Lemma finished_map_spawned (rest : list Item) : finished (map spawned rest) = 0.
Proof. induction rest as [|x rest IH]; [reflexivity | exact IH]. Qed.

Lemma run_finishFrom (rest pre : list (Item * Phase)) (w : Z) (t : list Event) :
  Forall (fun g => returns reporter (fst g)) rest ->
  exists t',
    run reporter (finishFrom (List.length pre) rest)
      {| pc := Waiting; waitGroup := w; goroutines := pre ++ rest; trace := t |}
    = Some {| pc := Waiting;
              waitGroup := (w - Z.of_nat (List.length rest - finished rest))%Z;
              goroutines := pre ++ map (fun g => done (fst g)) rest;
              trace := t' |}.
Proof.
  revert pre w t; induction rest as [|[x p] rest IH]; intros pre w t Hret.
  - exists t. simpl. now rewrite Z.sub_0_r.
  - apply Forall_cons_iff in Hret as [(tx & e & Hx) Hret]. simpl in Hx.
    pose proof (finished_le _ rest) as Hle.
    assert (forall w' t',
              exists t'',
                run reporter (finishFrom (S (List.length pre)) rest)
                  {| pc := Waiting; waitGroup := w';
                     goroutines := pre ++ done x :: rest; trace := t' |}
                = Some {| pc := Waiting;
                          waitGroup := (w' - Z.of_nat (List.length rest - finished rest))%Z;
                          goroutines := pre ++ done x :: map (fun g => done (fst g)) rest;
                          trace := t'' |}) as Hnext.
    { intros w' t'.
      destruct (IH (pre ++ [done x]) w' t' Hret) as (t'' & Hrun).
      rewrite length_app, Nat.add_comm, <- !app_assoc in Hrun. simpl in Hrun.
      now exists t''. }
    cbn [finishFrom map fst]. unfold moves. cbn [snd].
    destruct p.
    + destruct (Hnext (w - 1)%Z (t ++ tx)) as (t'' & Hrun).
      exists t''. rewrite run_app.
      change ((x, Spawned) :: rest) with (spawned x :: rest).
      rewrite (run_goroutine _ reporter pre rest x w t tx e Hx), Hrun.
      do 2 f_equal. change (finished (spawned x :: rest)) with (finished rest).
      cbn [List.length]. lia.
    + destruct (Hnext (w - 1)%Z t) as (t'' & Hrun).
      exists t''. rewrite run_app.
      rewrite (run_exiting pre rest x w t), Hrun.
      do 2 f_equal. change (finished ((x, Exiting) :: rest)) with (finished rest).
      cbn [List.length]. lia.
    + destruct (Hnext w t) as (t'' & Hrun).
      exists t''. cbn [app].
      change ((x, Finished) :: rest) with (done x :: rest) at 1.
      rewrite Hrun. reflexivity.
Qed.

(** X3.  The fan-out cannot get stuck: when no reporter panics, from
    wherever a schedule has led there is a way on (end the loop, let every
    goroutine finish, pass [Wait]) on which the command returns. *)
Theorem fanOut_can_always_return (items : list Item) (schedule : list Choice)
    (s : FanState Item) :
  Forall (returns reporter) items ->
  run reporter schedule (fanOut items) = Some s ->
  exists s', run reporter (completion s) s = Some s' /\ pc s' = Returned.
Proof.
  intros Hret Hrun.
  pose proof (never_crashes items schedule s Hret Hrun) as Hpc.
  destruct (Inv_run _ reporter items schedule _ s (Inv_fanOut _ reporter items) Hrun)
    as [Hc|(Hitems & Hwg & _)]; [contradiction|].
  assert (forall gs w t,
            map fst gs = items ->
            w = (Z.of_nat (List.length items) - Z.of_nat (finished gs))%Z ->
            exists s',
              run reporter (finishFrom 0 gs ++ [Main])
                {| pc := Waiting; waitGroup := w; goroutines := gs; trace := t |}
              = Some s' /\ pc s' = Returned) as Hwait.
  { intros gs w t Hgs Hw.
    destruct (run_finishFrom gs [] w t) as (t' & Hfinish).
    { apply Forall_forall. intros g Hg. rewrite Forall_forall in Hret.
      apply Hret. rewrite <- Hgs. now apply in_map. }
    simpl in Hfinish. rewrite run_app, Hfinish.
    assert ((w - Z.of_nat (List.length gs - finished gs))%Z = 0%Z) as Hzero.
    { pose proof (finished_le _ gs).
      apply (f_equal (@List.length Item)) in Hgs. rewrite length_map in Hgs. lia. }
    rewrite Hzero. eexists. split; reflexivity. }
  destruct s as [p w gs t]. simpl in *. unfold completion. cbn [pc goroutines].
  destruct p as [rest| | |].
  - simpl in Hitems.
    change (repeat Main (S (List.length rest)))
      with (Main :: repeat Main (List.length rest)).
    rewrite repeat_cons, <- !app_assoc, run_app, (run_loop _ reporter).
    change ([Main] ++ finishFrom 0 (gs ++ map spawned rest) ++ [Main])
      with (Main :: finishFrom 0 (gs ++ map spawned rest) ++ [Main]).
    cbn [run step]. unfold mainStep at 1. cbn [pc waitGroup goroutines trace].
    apply Hwait.
    + rewrite map_app, map_map. simpl. now rewrite map_id.
    + rewrite finished_app, finished_map_spawned, Nat.add_0_r. exact Hwg.
  - simpl in Hitems. rewrite app_nil_r in Hitems. now apply Hwait.
  - eexists. split; reflexivity.
  - contradiction.
Qed.

End FanOutMore.

(** ** More on the salt filter *)

Section SaltMore.

Local Open Scope string_scope.

Lemma take_append (a b : string) : strings.take (String.length a) (a ++ b) = a.
Proof. induction a as [|c a IH]; simpl; [now destruct b | now rewrite IH]. Qed.

Lemma drop_append (a b : string) : strings.drop (String.length a) (a ++ b) = b.
Proof. induction a as [|c a IH]; simpl; [reflexivity | exact IH]. Qed.

(** Every segment is a piece of the text. *)
Lemma genSplit_substring (fuel : nat) (s sep seg : string) :
  In seg (strings.genSplit fuel s sep) -> exists a b, s = a ++ seg ++ b.
Proof.
  revert s; induction fuel as [|fuel IH]; intros s Hin; simpl in Hin.
  - destruct Hin as [<-|[]]. exists "", "". simpl. now rewrite append_empty_r.
  - destruct (Z.ltb_spec (strings.Index s sep) 0) as [Hlt|Hge].
    + destruct Hin as [<-|[]]. exists "", "". simpl. now rewrite append_empty_r.
    + pose proof (Index_split s sep Hge) as Hs. simpl in Hs.
      destruct Hin as [<-|Hin].
      * exists "". eexists. simpl. exact Hs.
      * apply IH in Hin as (a & b & Hab).
        exists (strings.take (Z.to_nat (strings.Index s sep)) s ++ sep ++ a), b.
        rewrite Hs at 1. rewrite Hab. now rewrite !append_assoc.
Qed.

Lemma Contains_append (a s b substr : string) :
  strings.Contains s substr = true -> strings.Contains (a ++ s ++ b) substr = true.
Proof.
  intros Hc. apply Contains_iff in Hc as (x & y & ->).
  apply Contains_iff. exists (a ++ x), (y ++ b). now rewrite !append_assoc.
Qed.

Lemma hyphenFree_HasPrefix (c : ascii) (s : string) :
  Ascii.eqb c "-" = false -> strings.HasPrefix (String c s) saltSeparator = false.
Proof. intros Hc. simpl. now rewrite Hc. Qed.

(** In a text without hyphen there is no separator. *)
Lemma hyphenFree_Index (s : string) :
  hyphenFree s = true -> strings.Index s saltSeparator = (-1)%Z.
Proof.
  induction s as [|c s IH]; intros Hs; [reflexivity|].
  simpl in Hs. apply andb_prop in Hs as [Hc Hs]. apply negb_true_iff in Hc.
  rewrite Index_unfold, (hyphenFree_HasPrefix c s Hc), (IH Hs). reflexivity.
Qed.

(** After a text without hyphen, the first separator is the one that
    follows it. *)
Lemma hyphenFree_Index_append (seg rest : string) :
  hyphenFree seg = true ->
  strings.Index (seg ++ saltSeparator ++ rest) saltSeparator
  = Z.of_nat (String.length seg).
Proof.
  induction seg as [|c seg IH]; intros Hs.
  - change ("" ++ saltSeparator ++ rest) with (saltSeparator ++ rest).
    rewrite Index_unfold. now rewrite HasPrefix_append.
  - simpl in Hs. apply andb_prop in Hs as [Hc Hs]. apply negb_true_iff in Hc.
    rewrite Index_unfold.
    change (String c seg ++ saltSeparator ++ rest)
      with (String c (seg ++ saltSeparator ++ rest)).
    rewrite (hyphenFree_HasPrefix c _ Hc), (IH Hs).
    destruct (Z.ltb_spec (Z.of_nat (String.length seg)) 0); simpl String.length; lia.
Qed.

Lemma genSplit_concat_hyphenFree (states : list string) (fuel : nat) :
  states <> [] ->
  Forall (fun state => hyphenFree state = true) states ->
  String.length (String.concat saltSeparator states) <= fuel ->
  strings.genSplit fuel (String.concat saltSeparator states) saltSeparator = states.
Proof.
  revert fuel; induction states as [|state states IH]; intros fuel Hne Hfree Hfuel;
    [congruence|].
  apply Forall_cons_iff in Hfree as [Hstate Hfree].
  destruct states as [|state' states].
  - simpl. destruct fuel as [|fuel]; [reflexivity|]. simpl.
    now rewrite (hyphenFree_Index state Hstate).
  - change (String.concat saltSeparator (state :: state' :: states))
      with (state ++ saltSeparator ++ String.concat saltSeparator (state' :: states)) in *.
    specialize (IH (Nat.pred fuel)).
    remember (String.concat saltSeparator (state' :: states)) as joined eqn:Hjoined.
    rewrite !length_append in Hfuel.
    change (String.length saltSeparator) with 10 in Hfuel.
    destruct fuel as [|fuel]; [lia|].
    cbn [strings.genSplit].
    rewrite (hyphenFree_Index_append state _ Hstate).
    destruct (Z.ltb_spec (Z.of_nat (String.length state)) 0) as [Hlt|_]; [lia|].
    rewrite Nat2Z.id, take_append, drop_add, drop_append.
    rewrite (drop_append saltSeparator joined).
    simpl Nat.pred in IH.
    rewrite IH; [reflexivity | discriminate | assumption | lia].
Qed.

(** X4.  Round trip: states without hyphen, joined with the ten-hyphen
    separator, are split into the same states again, and the filter returns
    those of them that contain [Result: False], in their order. *)
Theorem getFailedSaltStates_of_joined (states : list string) :
  states <> [] ->
  Forall (fun state => hyphenFree state = true) states ->
  strings.Split (String.concat saltSeparator states) saltSeparator = states /\
  getFailedSaltStates (String.concat saltSeparator states)
  = filter (fun state => strings.Contains state saltFailure) states.
Proof.
  intros Hne Hfree.
  assert (strings.Split (String.concat saltSeparator states) saltSeparator = states)
    as Hsplit.
  { unfold strings.Split. now apply genSplit_concat_hyphenFree. }
  split; [exact Hsplit|].
  unfold getFailedSaltStates. now rewrite Hsplit, fold_keepFailed.
Qed.

End SaltMore.

Section SaltNone.

Local Open Scope string_scope.

Lemma get_Some (s : string) (i : nat) :
  i < String.length s -> exists c, String.get i s = Some c.
Proof.
  revert i; induction s as [|x s IH]; intros i Hi; simpl in Hi; [lia|].
  destruct i as [|i]; simpl; [now exists x|]. apply IH. lia.
Qed.

Lemma get_middle (a s b : string) (i : nat) :
  i < String.length s -> String.get (String.length a + i) (a ++ s ++ b) = String.get i s.
Proof.
  intros Hi. rewrite Nat.add_comm, <- append_correct2. symmetry.
  now apply append_correct1.
Qed.

Lemma hyphenFree_get (s : string) (i : nat) (c : ascii) :
  hyphenFree s = true -> String.get i s = Some c -> c <> "-"%char.
Proof.
  revert i; induction s as [|x s IH]; intros i Hs Hget; simpl in *; [discriminate|].
  apply andb_prop in Hs as [Hx Hs].
  destruct i as [|i].
  - injection Hget as <-. apply negb_true_iff in Hx. now apply Ascii.eqb_neq.
  - now apply (IH i).
Qed.

Lemma saltSeparator_get (i : nat) (c : ascii) :
  String.get i saltSeparator = Some c -> c = "-"%char.
Proof.
  intros Hget.
  do 10 (destruct i as [|i]; [simpl in Hget; now injection Hget as <-|]).
  discriminate.
Qed.

Lemma append_eq_split (a y pre z : string) :
  a ++ y = pre ++ z -> String.length a <= String.length pre ->
  exists x, pre = a ++ x /\ y = x ++ z.
Proof.
  revert pre; induction a as [|c a IH]; intros pre Heq Hlen; simpl in *.
  - now exists pre.
  - destruct pre as [|c' pre]; simpl in *; [lia|].
    injection Heq as <- Heq.
    destruct (IH pre Heq) as (x & -> & ->); [lia|]. now exists x.
Qed.

(** A text without hyphen that lies in [pre ++ separator ++ rest] lies in
    [pre] or in [rest]: it cannot reach into the separator. *)
Lemma Contains_across_separator (pre rest F : string) :
  hyphenFree F = true -> F <> "" ->
  strings.Contains (pre ++ saltSeparator ++ rest) F = true ->
  strings.Contains pre F = true \/ strings.Contains rest F = true.
Proof.
  intros Hfree Hne Hc. apply Contains_iff in Hc as (a & b & Heq).
  assert (0 < String.length F) as HF by (destruct F; simpl; [congruence | lia]).
  destruct (le_lt_dec (String.length a + String.length F) (String.length pre)) as [Hin|Hout].
  - left. symmetry in Heq.
    destruct (append_eq_split a (F ++ b) pre (saltSeparator ++ rest) Heq) as (x & -> & Hx);
      [lia|].
    rewrite length_append in Hin.
    destruct (append_eq_split F b x (saltSeparator ++ rest) Hx) as (y & -> & _); [lia|].
    apply Contains_iff. now exists a, y.
  - destruct (le_lt_dec (String.length pre + 10) (String.length a)) as [Hafter|Hover].
    + right. rewrite <- append_assoc in Heq.
      destruct (append_eq_split (pre ++ saltSeparator) rest a (F ++ b) Heq)
        as (x & -> & ->).
      { rewrite length_append. simpl. lia. }
      apply Contains_iff. now exists x, b.
    + exfalso.
      set (k := Nat.max (String.length a) (String.length pre)).
      assert (String.get k (a ++ F ++ b) = String.get (k - String.length a) F) as Hleft.
      { replace k with (String.length a + (k - String.length a)) at 1 by lia.
        apply get_middle. lia. }
      assert (String.get k (pre ++ saltSeparator ++ rest)
              = String.get (k - String.length pre) saltSeparator) as Hright.
      { replace k with (String.length pre + (k - String.length pre)) at 1 by lia.
        apply get_middle. simpl. lia. }
      destruct (get_Some F (k - String.length a)) as (c & Hget); [lia|].
      rewrite Heq, Hleft, Hget in Hright. symmetry in Hright.
      apply saltSeparator_get in Hright.
      exact (hyphenFree_get F _ c Hfree Hget Hright).
Qed.

Lemma genSplit_keeps (fuel : nat) (s F : string) :
  hyphenFree F = true -> F <> "" ->
  strings.Contains s F = true ->
  exists seg, In seg (strings.genSplit fuel s saltSeparator)
              /\ strings.Contains seg F = true.
Proof.
  intros Hfree Hne. revert s; induction fuel as [|fuel IH]; intros s Hc; simpl.
  - exists s. split; [now left | exact Hc].
  - destruct (Z.ltb_spec (strings.Index s saltSeparator) 0) as [Hlt|Hge].
    + exists s. split; [now left | exact Hc].
    + pose proof (Index_split s saltSeparator Hge) as Hs. simpl in Hs.
      rewrite Hs in Hc.
      apply Contains_across_separator in Hc as [Hpre|Hrest]; try assumption.
      * eexists. split; [now left | exact Hpre].
      * destruct (IH _ Hrest) as (seg & Hin & Hseg).
        exists seg. split; [now right | exact Hseg].
Qed.

(** X5.  The filter returns no state exactly when [Result: False] is
    nowhere in the console output: a failure is never lost at a cut, and
    none is made up. *)
Theorem getFailedSaltStates_nil_iff (output : string) :
  getFailedSaltStates output = [] <-> strings.Contains output saltFailure = false.
Proof.
  unfold getFailedSaltStates, strings.Split. rewrite fold_keepFailed. simpl app.
  split.
  - intros Hnil.
    destruct (strings.Contains output saltFailure) eqn:Hc; [exfalso|reflexivity].
    destruct (genSplit_keeps (String.length output) output saltFailure)
      as (seg & Hin & Hseg); try reflexivity; try discriminate; try assumption.
    assert (In seg (filter (fun state => strings.Contains state saltFailure)
                      (strings.genSplit (String.length output) output saltSeparator)))
      as Hfilter by (apply filter_In; now split).
    rewrite Hnil in Hfilter. exact Hfilter.
  - intros Hc. apply filter_none. intros seg Hin.
    destruct (strings.Contains seg saltFailure) eqn:Hseg; [exfalso|reflexivity].
    apply genSplit_substring in Hin as (a & b & ->).
    rewrite (Contains_append a seg b saltFailure Hseg) in Hc. discriminate.
Qed.

End SaltNone.

(** ** More on [logs] *)

Section LogsMore.

Local Open Scope string_scope.

Lemma literal_escapePercent (s : string) :
  (fmt.literal (escapePercent s) = (s, "")) \/
  (exists l s3,
     fmt.literal (escapePercent s) = (l, String "%" (String "%" (escapePercent s3))) /\
     s = l ++ String "%" s3 /\
     String.length (escapePercent s)
     = String.length l + 2 + String.length (escapePercent s3)).
Proof.
  induction s as [|c s IH]; [now left|].
  simpl escapePercent. destruct (Ascii.eqb c "%") eqn:Hc.
  - apply Ascii.eqb_eq in Hc; subst c. right. exists "", s. repeat split.
  - simpl fmt.literal. rewrite Hc.
    destruct IH as [Hlit|(l & s3 & Hlit & -> & Hlen)]; rewrite Hlit.
    + now left.
    + right. exists (String c l), s3. repeat split. simpl. now rewrite Hlen.
Qed.

Lemma doVerb_percent (rest : string) :
  fmt.doVerb (String "%" rest) = ("%", Some rest).
Proof. reflexivity. Qed.

(** A format in which every ["%"] is doubled writes the text it stands
    for. *)
Lemma doPrintf_escapePercent (fuel : nat) (s : string) :
  String.length (escapePercent s) < fuel ->
  fmt.doPrintf fuel (escapePercent s) = s.
Proof.
  revert s; induction fuel as [|fuel IH]; intros s Hfuel; [lia|].
  simpl fmt.doPrintf.
  destruct (literal_escapePercent s) as [Hlit|(l & s3 & Hlit & Hs & Hlen)];
    rewrite Hlit; [reflexivity|].
  rewrite doVerb_percent, IH by lia. now rewrite Hs.
Qed.

Lemma escapePercent_no_percent (s : string) :
  strings.Contains s "%" = false -> escapePercent s = s.
Proof.
  induction s as [|c s IH]; intros Hc; [reflexivity|]. simpl.
  destruct (Ascii.eqb c "%") eqn:Hp.
  - apply Ascii.eqb_eq in Hp; subst c. discriminate Hc.
  - rewrite IH; [reflexivity|].
    destruct (strings.Contains s "%") eqn:Hs; [|reflexivity].
    apply Contains_iff in Hs as (a & b & ->).
    assert (strings.Contains (String c (a ++ "%" ++ b)) "%" = true) as Hc'.
    { apply Contains_iff. now exists (String c a), b. }
    congruence.
Qed.

Lemma forRange_Println (l : list string) :
  forRange l fmt.Println = (map (fun s => Stdout (s ++ newline)) l, Ret tt).
Proof.
  induction l as [|s l IH]; simpl; [reflexivity|]. now rewrite IH.
Qed.

Variable markers : Markers.
Variable jenkins : Jenkins.

(** What [logsExec] writes for a job that is resolved and has a last
    build. *)
Lemma logsExec_success (jobName : string) (salt : bool) (j : Job) (b : Build) :
  GetJob jenkins jobName = (Some j, None) ->
  GetLastBuild jenkins j = (Some b, None) ->
  logsExec markers jenkins jobName salt
  = (Stdout (statusMarker markers (GetResult b) ++ " " ++ jobName
             ++ " (" ++ GetUrl b ++ ")" ++ newline)
     :: Stdout ("Jenkins result code: " ++ GetResult b ++ newline)
     :: (if salt
         then map (fun s => Stdout (s ++ newline))
                (getFailedSaltStates (GetConsoleOutput b))
         else [Stdout (fmt.doPrintf (S (String.length (GetConsoleOutput b)))
                         (GetConsoleOutput b))])
        ++ [Stdout (GetUrl b ++ "/consoleText" ++ newline)],
     Ret None).
Proof.
  intros Hjob Hbuild. unfold logsExec. rewrite Hjob. simpl. rewrite Hbuild. simpl.
  destruct salt.
  - rewrite forRange_Println. reflexivity.
  - reflexivity.
Qed.

Lemma stdout_map_Stdout (l : list string) : stdout (map Stdout l) = l.
Proof. induction l as [|s l IH]; simpl; [reflexivity | now rewrite IH]. Qed.

(** X6.  With the salt flag, for a job that is resolved and has a last
    build, [logs] returns no error and writes the status line, the result
    line, one line for each failed state and the pointer to the full log;
    every state it writes contains [Result: False] and no separator, and
    when the console has no [Result: False] it writes the three fixed lines
    only. *)
Theorem logsExec_salt_output (jobName : string) (j : Job) (b : Build) :
  GetJob jenkins jobName = (Some j, None) ->
  GetLastBuild jenkins j = (Some b, None) ->
  let states := getFailedSaltStates (GetConsoleOutput b) in
  snd (logsExec markers jenkins jobName true) = Ret None /\
  stdout (fst (logsExec markers jenkins jobName true))
  = (statusMarker markers (GetResult b) ++ " " ++ jobName
     ++ " (" ++ GetUrl b ++ ")" ++ newline)
    :: ("Jenkins result code: " ++ GetResult b ++ newline)
    :: map (fun s => s ++ newline) states
       ++ [GetUrl b ++ "/consoleText" ++ newline] /\
  Forall (fun s => strings.Contains s saltFailure = true
                   /\ strings.Contains s saltSeparator = false) states /\
  (strings.Contains (GetConsoleOutput b) saltFailure = false ->
   List.length (stdout (fst (logsExec markers jenkins jobName true))) = 3).
Proof.
  intros Hjob Hbuild states. subst states.
  rewrite (logsExec_success jobName true j b Hjob Hbuild). simpl fst. simpl snd.
  split; [reflexivity|]. split; [|split].
  - simpl stdout. do 2 f_equal.
    rewrite stdout_app. simpl.
    rewrite <- (map_map (fun s => s ++ newline) Stdout), stdout_map_Stdout.
    reflexivity.
  - unfold getFailedSaltStates, strings.Split. rewrite fold_keepFailed.
    simpl app. apply Forall_forall. intros s Hin.
    apply filter_In in Hin as [Hin Hs]. split; [exact Hs|].
    pose proof (genSplit_free (String.length (GetConsoleOutput b)) (GetConsoleOutput b)
                  saltSeparator) as Hfree.
    rewrite Forall_forall in Hfree.
    apply Hfree; [discriminate | apply Nat.le_refl | exact Hin].
  - intros Hnone. apply getFailedSaltStates_nil_iff in Hnone.
    rewrite Hnone. reflexivity.
Qed.

(** X7.  Without the salt flag, a console output in which every ["%"] is
    doubled is written with single ["%"]; in particular a console output
    with no ["%"] at all is written as it is, between the two header lines
    and the pointer to the full log. *)
Theorem logsExec_console_escaped (jobName : string) (j : Job) (b : Build)
    (text : string) :
  GetJob jenkins jobName = (Some j, None) ->
  GetLastBuild jenkins j = (Some b, None) ->
  GetConsoleOutput b = escapePercent text ->
  stdout (fst (logsExec markers jenkins jobName false))
  = [ statusMarker markers (GetResult b) ++ " " ++ jobName
      ++ " (" ++ GetUrl b ++ ")" ++ newline;
      "Jenkins result code: " ++ GetResult b ++ newline;
      text;
      GetUrl b ++ "/consoleText" ++ newline ] /\
  (strings.Contains text "%" = false -> GetConsoleOutput b = text).
Proof.
  intros Hjob Hbuild Hconsole.
  rewrite (logsExec_success jobName false j b Hjob Hbuild).
  rewrite Hconsole, doPrintf_escapePercent by lia.
  split; [reflexivity|].
  intros Hc. now apply escapePercent_no_percent.
Qed.

End LogsMore.

(** ** More on [open] and [status] *)

Section MatcherMore.

Context `{RegexpEngine}.
Variable markers : Markers.
Variable jenkins : Jenkins.

Lemma stdout_map_OpenRun (urls : list string) : stdout (map OpenRun urls) = [].
Proof. induction urls as [|u urls IH]; simpl; [reflexivity | exact IH]. Qed.

(** X8.  Whatever the server lists and whatever the pattern, [open] hands
    at most three URLs to the browser and writes nothing to standard
    output. *)
Theorem openExec_at_most_three (regex : string) :
  List.length (opened (fst (openExec jenkins regex))) <= 3 /\
  stdout (fst (openExec jenkins regex)) = [].
Proof.
  unfold openExec.
  destruct (findMatchingJobs jenkins regex) as [jobs [e|]]; simpl;
    [split; [lia | reflexivity]|].
  destruct (Nat.ltb_spec 3 (List.length jobs)) as [Hmany|Hfew]; simpl;
    [split; [lia | reflexivity]|].
  rewrite forRange_open. simpl. rewrite app_nil_r.
  rewrite <- (map_map Url OpenRun), opened_map_OpenRun, stdout_map_OpenRun, length_map.
  split; [exact Hfew | reflexivity].
Qed.

Lemma statusLine_singleton (job : InnerJob) (line : string) :
  In line (statusLine markers jenkins job) -> statusLine markers jenkins job = [line].
Proof.
  unfold statusLine.
  destruct (GetJob jenkins (Name job)) as [[j|] [e|]]; simpl; try tauto.
  destruct (GetLastBuild jenkins j) as [[b|] [e|]]; simpl; try tauto;
    intros [<-|[]]; reflexivity.
Qed.

(** X9.  [status] reports matching jobs only.  When the listing fails,
    [statusExec] returns its error and starts no goroutine.  When the
    server lists the jobs [J], the goroutines are started for the jobs of
    [J] that match the pattern, and once the command has returned every
    line on standard output is the status line of a job of [J] that
    matches. *)
Theorem statusExec_only_matching (regex : string) :
  (forall J e, GetAllJobNames jenkins = (J, Some e) ->
     statusExec jenkins regex = inl e) /\
  (forall J schedule s,
     GetAllJobNames jenkins = (J, None) ->
     statusExec jenkins regex = inr (fanOut (filter (matches regex) J)) /\
     (run (printStatus markers jenkins) schedule (fanOut (filter (matches regex) J))
      = Some s ->
      pc s = Returned ->
      forall line, In line (stdout (trace s)) ->
        exists job, In job J /\ matches regex job = true /\
                    statusLine markers jenkins job = [line])).
Proof.
  split.
  - intros J e HJ. unfold statusExec, findMatchingJobs. now rewrite HJ.
  - intros J schedule s HJ.
    pose proof (findMatchingJobs_filter jenkins regex J HJ) as Hjobs.
    split; [unfold statusExec; now rewrite Hjobs|].
    intros Hrun Hpc line Hline.
    destruct (fanOut_returned _ _ _ schedule s Hrun Hpc) as (_ & _ & _ & _ & Hperm).
    apply stdout_Permutation in Hperm. rewrite stdout_flat_map in Hperm.
    apply (Permutation_in line Hperm) in Hline.
    apply in_flat_map in Hline as (job & Hjob & Hin).
    rewrite printStatus_stdout in Hin.
    apply filter_In in Hjob as [HJob Hmatch].
    exists job. repeat split; try assumption.
    now apply statusLine_singleton.
Qed.

End MatcherMore.

(** ** [main], [queue] and package [commands] *)

Section MainMore.

Context `{RegexpEngine}.
Variable markers : Markers.
Variable CreateJenkins : string -> string -> string -> Session.

Lemma length_eqb_0 (s : string) : (String.length s =? 0)%nat = String.eqb s "".
Proof. now destruct s. Qed.


Lemma main_dispatch (env : Environ) (cli : CommandLine) :
  JENKINS_URL env <> "" -> JENKINS_USER env <> "" ->
  Init (CreateJenkins (JENKINS_URL env) (JENKINS_USER env) (JENKINS_PW env)) = None ->
  let session :=
    CreateJenkins (JENKINS_URL env) (JENKINS_USER env) (JENKINS_PW env) in
  main markers CreateJenkins env cli
  = if String.eqb (command cli) "status" then
      match statusExec (client session) (statusRegexArg cli) with
      | inl e => Ran (reportError (Some e))
      | inr s => RunsStatus s
      end
    else if String.eqb (command cli) "logs" then
      Ran (err <- logsExec markers (client session) (logsJobArg cli) (saltFlag cli) ;;
           reportError err)
    else if String.eqb (command cli) "queue" then
      Ran (err <- queue session (queueRegexArg cli) (verbose cli) (saltFlag cli) ;;
           reportError err)
    else if String.eqb (command cli) "nodes" then
      match nodes (client session) with
      | inl e => Ran (reportError (Some e))
      | inr s => RunsNodes s
      end
    else if String.eqb (command cli) "open" then
      Ran (err <- openExec (client session) (openRegexArg cli) ;;
           reportError err)
    else Ran (emit (Stderr (Usage cli))).
Proof.
  intros Hurl Huser Hinit session. unfold main. rewrite !length_eqb_0.
  apply String.eqb_neq in Hurl, Huser. now rewrite Hurl, Huser, Hinit.
Qed.

(** X11.  After a successful start, the first failure of a command ends
    the process with status 1 and the diagnostic [Cannot execute command:]
    followed by the error; nothing is on standard output, no URL is opened
    and no goroutine is started.  This holds for the listing of the jobs in
    [status] and [open], the listing of the nodes in [nodes], the resolution
    of the job in [logs] and the fetch of the queue in [queue]. *)
Theorem main_command_error (env : Environ) (cli : CommandLine) (e : error) :
  JENKINS_URL env <> "" -> JENKINS_USER env <> "" ->
  Init (CreateJenkins (JENKINS_URL env) (JENKINS_USER env) (JENKINS_PW env)) = None ->
  let session :=
    CreateJenkins (JENKINS_URL env) (JENKINS_USER env) (JENKINS_PW env) in
  let failed :=
    Ran ([Stderr ("Cannot execute command: " ++ e ++ newline)%string], Exit 1%Z) in
  (forall J, GetAllJobNames (client session) = (J, Some e) ->
     (command cli = "status" \/ command cli = "open") ->
     main markers CreateJenkins env cli = failed) /\
  (forall N, GetAllNodes (client session) = (N, Some e) ->
     command cli = "nodes" ->
     main markers CreateJenkins env cli = failed) /\
  (forall j, GetJob (client session) (logsJobArg cli) = (j, Some e) ->
     command cli = "logs" ->
     main markers CreateJenkins env cli = failed) /\
  (forall q, GetQueue session = (q, Some e) ->
     command cli = "queue" ->
     main markers CreateJenkins env cli = failed).
Proof.
  intros Hurl Huser Hinit session failed.
  rewrite (main_dispatch env cli Hurl Huser Hinit). fold session.
  repeat split.
  - intros J HJ [Hc|Hc]; rewrite Hc; simpl.
    + unfold statusExec, findMatchingJobs. now rewrite HJ.
    + unfold openExec, findMatchingJobs. now rewrite HJ.
  - intros N HN Hc. rewrite Hc. simpl. unfold nodes. now rewrite HN.
  - intros j Hj Hc. rewrite Hc. simpl. unfold logsExec. now rewrite Hj.
  - intros q Hq Hc. rewrite Hc. simpl. unfold queue. now rewrite Hq.
Qed.

(** X12.  [queue] reads nothing but the queue: with the queue fetched, the
    process writes the raw queue and a newline and ends normally, and two
    command lines that both select [queue] give the same process, whatever
    their regex, verbose and salt. *)
Theorem main_queue (env : Environ) (cli cli' : CommandLine) :
  JENKINS_URL env <> "" -> JENKINS_USER env <> "" ->
  Init (CreateJenkins (JENKINS_URL env) (JENKINS_USER env) (JENKINS_PW env)) = None ->
  command cli = "queue" -> command cli' = "queue" ->
  main markers CreateJenkins env cli = main markers CreateJenkins env cli' /\
  (forall q,
     GetQueue (CreateJenkins (JENKINS_URL env) (JENKINS_USER env) (JENKINS_PW env))
     = (Some q, None) ->
     main markers CreateJenkins env cli
     = Ran ([Stdout (QueueRaw q ++ newline)%string], Ret tt)).
Proof.
  intros Hurl Huser Hinit Hc Hc'.
  rewrite !(main_dispatch env _ Hurl Huser Hinit), Hc, Hc'. simpl.
  split; [reflexivity|].
  intros q Hq. unfold queue. now rewrite Hq.
Qed.

End MainMore.

(** X13.  [Logs.Exec] of package [commands] on [NewLogs(jenkins, jobName,
    salt)] does what [logsExec] of [main] does with the same arguments,
    when the markers of the package are the glyphs of [main]: the same
    output and the same result, on every server. *)
Theorem Exec_is_logsExec (markers : Markers) (jenkins : Jenkins)
    (jobName : string) (salt : bool) :
  commands.Exec markers (commands.NewLogs jenkins jobName salt)
  = logsExec markers jenkins jobName salt.
Proof.
  unfold commands.Exec, commands.NewLogs, logsExec, lastBuildResult, statusMarker.
  simpl.
  destruct (GetJob jenkins jobName) as [build [e|]]; [reflexivity|].
  destruct build as [j|]; [|reflexivity]. simpl.
  destruct (GetLastBuild jenkins j) as [lastBuild [e|]]; reflexivity.
Qed.

(** ** The further properties on the example server *)

(** After the loop and the body of the first reporter the counter is
    still 4. *)
Lemma waitGroup_in_bounds_witness :
  exists s,
    run (printStatus example.markers example.jenkins)
      [Main; Main; Main; Main; Main; Goroutine 0] (fanOut example.jobs) = Some s /\
    (0 <= waitGroup s <= 4)%Z.
Proof.
  eexists. split; [vm_compute; reflexivity|].
  refine (waitGroup_in_bounds _ (printStatus example.markers example.jenkins)
            example.jobs [Main; Main; Main; Main; Main; Goroutine 0] _ _).
  vm_compute; reflexivity.
Defined.

(** After [nodes] has returned on the example server, the empty schedule
    is the only one left. *)
Lemma returned_is_final_witness :
  exists s,
    run (printNodeStatus example.jenkins) (inTurn 3) (fanOut example.nodeList) = Some s /\
    pc s = Returned /\ (@nil Choice = [] /\ s = s).
Proof.
  eexists. split; [vm_compute; reflexivity|]. split; [reflexivity|].
  refine (returned_is_final _ (printNodeStatus example.jenkins) example.nodeList
            (inTurn 3) [] _ _ _ _ _); vm_compute; reflexivity.
Defined.

(** [nodes] on the example server, stopped after the loop and one reporter:
    it can still return. *)
Lemma fanOut_can_always_return_witness :
  exists s s',
    run (printNodeStatus example.jenkins) [Main; Main; Main; Main; Goroutine 1]
      (fanOut example.nodeList) = Some s /\
    run (printNodeStatus example.jenkins) (completion s) s = Some s' /\
    pc s' = Returned.
Proof.
  eexists.
  refine ((fun H => match H with ex_intro _ s' (conj Hrun Hpc) =>
                      ex_intro _ s' (conj _ (conj Hrun Hpc)) end)
            (fanOut_can_always_return _ (printNodeStatus example.jenkins)
               example.nodeList [Main; Main; Main; Main; Goroutine 1] _ _ _)).
  - vm_compute; reflexivity.
  - apply Forall_forall. intros node _. apply printNodeStatus_returns.
  - vm_compute; reflexivity.
Defined.

(** Two states without hyphen, one of them failed. *)
Lemma getFailedSaltStates_of_joined_witness :
  getFailedSaltStates "ID: nginx Result: True----------ID: redis Result: False"
  = ["ID: redis Result: False"].
Proof.
  refine (proj2 (getFailedSaltStates_of_joined
                   ["ID: nginx Result: True"; "ID: redis Result: False"] _ _)).
  - discriminate.
  - repeat constructor.
Defined.

(** [build-web] on the example server, with the salt flag: one failed
    state. *)
Lemma logsExec_salt_output_witness :
  stdout (fst (logsExec example.markers example.jenkins "build-web" true))
  = [ ("FAILED build-web (http://ci/job/build-web/3/)" ++ newline)%string;
      ("Jenkins result code: FAILURE" ++ newline)%string;
      ("ID: redis Result: False Comment: down" ++ newline)%string;
      ("http://ci/job/build-web/3//consoleText" ++ newline)%string ].
Proof.
  refine (proj1 (proj2 (logsExec_salt_output example.markers example.jenkins
                          "build-web" {| Base := "build-web" |}
                          {| GetResult := "FAILURE";
                             GetUrl := "http://ci/job/build-web/3/";
                             GetConsoleOutput := example.saltConsole |} _ _)));
    reflexivity.
Defined.

(** [build-web] on the example server, without the salt flag: its console
    has no ["%"]. *)
Lemma logsExec_console_escaped_witness :
  stdout (fst (logsExec example.markers example.jenkins "build-web" false))
  = [ ("FAILED build-web (http://ci/job/build-web/3/)" ++ newline)%string;
      ("Jenkins result code: FAILURE" ++ newline)%string;
      example.saltConsole;
      ("http://ci/job/build-web/3//consoleText" ++ newline)%string ].
Proof.
  refine (proj1 (logsExec_console_escaped example.markers example.jenkins
                   "build-web" {| Base := "build-web" |}
                   {| GetResult := "FAILURE";
                      GetUrl := "http://ci/job/build-web/3/";
                      GetConsoleOutput := example.saltConsole |}
                   example.saltConsole _ _ _));
    reflexivity.
Defined.

(** [status web] on the example server: the one line of a job that is
    in the listing and matches. *)
Lemma statusExec_only_matching_witness :
  exists job,
    In job example.jobs /\ matches "web" job = true /\
    statusLine example.markers example.jenkins job
    = [("FAILED build-web (http://ci/job/build-web/)" ++ newline)%string].
Proof.
  refine (proj2 (proj2 (statusExec_only_matching (H := miniRegexp)
                          example.markers example.jenkins "web")
                   example.jobs (inTurn 1)
                   {| pc := Returned; waitGroup := 0%Z;
                      goroutines := [({| Name := "build-web";
                                         Url := "http://ci/job/build-web/" |}, Finished)];
                      trace := [Stdout ("FAILED build-web (http://ci/job/build-web/)"
                                        ++ newline)%string] |}
                   _) _ _ _ _).
  - reflexivity.
  - vm_compute; reflexivity.
  - reflexivity.
  - now left.
Defined.


(** [logs nightly] on the example server: the job cannot be resolved. *)
Lemma main_command_error_witness :
  main (H := miniRegexp) example.markers start.CreateJenkins start.env
    (start.cli "logs" "nightly" false)
  = Ran ([Stderr ("Cannot execute command: 404" ++ newline)%string], Exit 1%Z).
Proof.
  refine (proj1 (proj2 (proj2
            (main_command_error (H := miniRegexp) example.markers start.CreateJenkins
               start.env (start.cli "logs" "nightly" false) "404" _ _ _)))
            None _ _); try reflexivity; discriminate.
Defined.

(** [queue] on the example server, with and without the salt flag. *)
Lemma main_queue_witness :
  main (H := miniRegexp) example.markers start.CreateJenkins start.env
    (start.cli "queue" "" true)
  = Ran ([Stdout ("&{[]}" ++ newline)%string], Ret tt).
Proof.
  refine (proj2 (main_queue (H := miniRegexp) example.markers start.CreateJenkins
                   start.env (start.cli "queue" "" true) (start.cli "queue" "x" false)
                   _ _ _ _ _) {| QueueRaw := "&{[]}" |} _);
    try reflexivity; discriminate.
Defined.

(** X14.  What a fan-out writes does not depend on the schedule: two runs
    of the same command that both return have written the same lines, in
    an order that may differ. *)
Theorem fanOut_schedule_independent (Item : Type) (reporter : Item -> Cmd (option error))
    (items : list Item) (schedule1 schedule2 : list Choice) (s1 s2 : FanState Item) :
  run reporter schedule1 (fanOut items) = Some s1 -> pc s1 = Returned ->
  run reporter schedule2 (fanOut items) = Some s2 -> pc s2 = Returned ->
  Permutation (trace s1) (trace s2) /\
  List.length (stdout (trace s1)) = List.length (stdout (trace s2)).
Proof.
  intros Hrun1 Hpc1 Hrun2 Hpc2.
  destruct (fanOut_returned _ reporter items schedule1 s1 Hrun1 Hpc1)
    as (_ & _ & _ & _ & Hperm1).
  destruct (fanOut_returned _ reporter items schedule2 s2 Hrun2 Hpc2)
    as (_ & _ & _ & _ & Hperm2).
  assert (Permutation (trace s1) (trace s2)) as Hperm
    by (rewrite Hperm1, Hperm2; reflexivity).
  split; [exact Hperm|].
  apply Permutation_length. now apply stdout_Permutation.
Qed.

(** [nodes] on the example server, the reporters in turn and the reporter
    of [agent-1] first: the same two lines, in the other order. *)
Lemma fanOut_schedule_independent_witness :
  exists s1 s2,
    run (printNodeStatus example.jenkins) (inTurn 3) (fanOut example.nodeList) = Some s1 /\
    run (printNodeStatus example.jenkins)
      [Main; Main; Main; Goroutine 1; Goroutine 0; Goroutine 2; Main;
       Goroutine 2; Goroutine 0; Goroutine 1; Main]
      (fanOut example.nodeList) = Some s2 /\
    stdout (trace s2) = [ ("agent-1: Online" ++ newline)%string;
                          ("master: Online" ++ newline)%string ] /\
    Permutation (trace s1) (trace s2).
Proof.
  eexists _, _. split; [vm_compute; reflexivity|]. split; [vm_compute; reflexivity|].
  split; [reflexivity|].
  refine (proj1 (fanOut_schedule_independent _ (printNodeStatus example.jenkins)
                   example.nodeList (inTurn 3)
                   [Main; Main; Main; Goroutine 1; Goroutine 0; Goroutine 2; Main;
                    Goroutine 2; Goroutine 0; Goroutine 1; Main] _ _ _ _ _ _));
    vm_compute; reflexivity.
Defined.
